(** * SoundClaude-Backend: ingestion and similarity search of [src/index.js]

    A shallow embedding of the script [src/index.js]: the JSON values the
    analysis service answers with, the text composed for the embedding
    model, the ingestion pipeline [fetchLyricsAndStore] with its
    try / catch / finally, and the similarity search [findSimilarSongs]
    with [cosineSimilarity] over IEEE-754 binary64 numbers.

    JavaScript numbers are Rocq's primitive floats (binary64, round to
    nearest even), so [NaN], the infinities and signed zeros behave as they
    do in the engine.  Asynchronous functions are state-and-exception
    computations over a [world] holding the two MongoDB collections and a
    trace of the observable calls; the answers of the outside world (HTTP
    services, the database driver, the clock) are read from an [env].
    [Array.prototype.sort] is ECMAScript's: the stable sorted order on a
    consistent comparator, and the order of the engine, which the [env]
    also holds, on any other. *)

From Stdlib Require Import List ZArith NArith Lia Bool Ascii String Floats.
From Stdlib Require Import DecimalString Permutation Sorted.
Import ListNotations.

Set Warnings "-register-all".

(* ================================================================== *)
(** * Exceptions and outcomes *)

(** What a JavaScript computation can throw here: a [TypeError] raised by
    the language itself, or the rejection of an external call. *)
Inductive exn : Type :=
| TypeError (msg : string)
| Rejected (what : string).

Definition outcome (A : Type) : Type := (exn + A)%type.

Definition is_ok {A} (o : outcome A) : bool :=
  match o with inr _ => true | inl _ => false end.

(* ================================================================== *)
(** * JSON values as the script sees them *)

Module Js.

#[local] Open Scope string_scope.

(** A value obtained from [response.json()], or [undefined] for a property
    that is missing.  A number is kept as what this script can observe of
    it: its decimal rendering and whether it is falsy (0 or NaN).  The
    properties of an object are listed in the order [Object.values]
    enumerates them. *)
Inductive jsval : Type :=
| JUndefined
| JNull
| JBool (b : bool)
| JNumber (text : string) (falsy : bool)
| JString (s : string)
| JArray (elems : list jsval)
| JObject (props : list (string * jsval)).

(** ToBoolean. *)
Definition truthy (v : jsval) : bool :=
  match v with
  | JUndefined | JNull => false
  | JBool b => b
  | JNumber _ falsy => negb falsy
  | JString s => negb (String.eqb s "")
  | JArray _ | JObject _ => true
  end.

(** [a || b]. *)
Definition or_ (a b : jsval) : jsval := if truthy a then a else b.

Fixpoint lookup (k : string) (props : list (string * jsval)) : jsval :=
  match props with
  | [] => JUndefined
  | (k', v) :: rest => if String.eqb k k' then v else lookup k rest
  end.

(** [v.k] / [v['k']] for the property names this script reads (none of
    which a string, number, boolean or array carries). *)
Definition get (v : jsval) (k : string) : outcome jsval :=
  match v with
  | JUndefined | JNull => inl (TypeError "Cannot read properties of undefined or null")
  | JObject props => inr (lookup k props)
  | _ => inr JUndefined
  end.

(** A string is kept here as its UTF-8 bytes, a lone surrogate in the
    same three-byte form.  A byte that continues a character: *)
Definition continues (c : ascii) : bool :=
  let n := N_of_ascii c in ((128 <=? n) && (n <? 192))%N.

(** A code unit above [0x7FF], in three bytes. *)
Definition three_bytes (u : N) : string :=
  String (ascii_of_N (224 + N.shiftr u 12))
    (String (ascii_of_N (128 + N.land (N.shiftr u 6) 63))
       (String (ascii_of_N (128 + N.land u 63)) EmptyString)).

(** The two surrogates of a character of four bytes. *)
Definition surrogates (c1 c2 c3 c4 : ascii) : list jsval :=
  let cp := (N.shiftl (N.land (N_of_ascii c1) 7) 18
             + N.shiftl (N.land (N_of_ascii c2) 63) 12
             + N.shiftl (N.land (N_of_ascii c3) 63) 6
             + N.land (N_of_ascii c4) 63)%N in
  let v := (cp - 65536)%N in
  [JString (three_bytes (55296 + N.shiftr v 10));
   JString (three_bytes (56320 + N.land v 1023))].

(** The elements a string has for [Object.values]: its UTF-16 code units,
    each a string of its own.  A character of one to three bytes is one
    code unit, a character of four bytes is two (its surrogates); a byte
    that starts no character stands alone. *)
Fixpoint chars (s : string) : list jsval :=
  match s with
  | EmptyString => []
  | String c1 rest1 =>
      let alone := JString (String c1 EmptyString) :: chars rest1 in
      let n1 := N_of_ascii c1 in
      if (n1 <? 192)%N then alone
      else
        match rest1 with
        | String c2 rest2 =>
            if negb (continues c2) then alone
            else if (n1 <? 224)%N
            then JString (String c1 (String c2 EmptyString)) :: chars rest2
            else
              match rest2 with
              | String c3 rest3 =>
                  if negb (continues c3) then alone
                  else if (n1 <? 240)%N
                  then JString (String c1 (String c2 (String c3 EmptyString)))
                         :: chars rest3
                  else
                    match rest3 with
                    | String c4 rest4 =>
                        if continues c4 && (n1 <? 248)%N
                        then (surrogates c1 c2 c3 c4 ++ chars rest4)%list
                        else alone
                    | EmptyString => alone
                    end
              | EmptyString => alone
              end
        | EmptyString => alone
        end
  end.

(** [Object.values(v)]. *)
Definition Object_values (v : jsval) : outcome (list jsval) :=
  match v with
  | JUndefined | JNull => inl (TypeError "Cannot convert undefined or null to object")
  | JObject props => inr (map snd props)
  | JArray elems => inr elems
  | JString s => inr (chars s)
  | JBool _ | JNumber _ _ => inr []
  end.

(** ToString, with an array rendered as its elements joined by commas. *)
Fixpoint ToString (v : jsval) : string :=
  match v with
  | JUndefined => "undefined"
  | JNull => "null"
  | JBool true => "true"
  | JBool false => "false"
  | JNumber text _ => text
  | JString s => s
  | JArray elems =>
      String.concat ","
        (map (fun x => match x with
                       | JUndefined | JNull => ""
                       | _ => ToString x
                       end) elems)
  | JObject _ => "[object Object]"
  end.

(** One element of [Array.prototype.join]: [undefined] and [null] give
    the empty string. *)
Definition join_elem (v : jsval) : string :=
  match v with
  | JUndefined | JNull => ""
  | _ => ToString v
  end.

(** [arr.join(sep)]. *)
Definition join (arr : list jsval) (sep : string) : string :=
  String.concat sep (map join_elem arr).

End Js.
Import Js.

(** Sequencing of pure computations that may throw. *)
Definition obind {A B} (o : outcome A) (k : A -> outcome B) : outcome B :=
  match o with
  | inl e => inl e
  | inr a => k a
  end.

Declare Scope outcome_scope.
Delimit Scope outcome_scope with outcome.
Notation "'let?' x ':=' o 'in' k" := (obind o (fun x => k))
  (at level 10, x name, o at level 100, k at level 200) : outcome_scope.

(* ================================================================== *)
(** * Text composition (index.js, lines 89-94) *)

Section TextComposition.

Open Scope string_scope.
Open Scope outcome_scope.

(** [[result.summary, ...Object.values(result.keywords || {}),
      ...Object.values(result['ddex moods'] || {}),
      ...Object.values(result['ddex themes'] || {})].join(' ')] *)
Definition combinedText (result : jsval) : outcome string :=
  let? summary := get result "summary" in
  let? keywords := get result "keywords" in
  let? kws := Object_values (or_ keywords (JObject [])) in
  let? moods := get result "ddex moods" in
  let? mds := Object_values (or_ moods (JObject [])) in
  let? themes := get result "ddex themes" in
  let? ths := Object_values (or_ themes (JObject [])) in
  inr (join (summary :: (kws ++ mds ++ ths)%list) " ").

End TextComposition.

(** ** The composer as the specification words it *)

(** The metadata of the specification: a summary and three optional
    mappings from string keys to string values, each in its iteration
    order. *)
Record metadata : Type := {
  md_summary : string;
  md_keywords : option (list (string * string));
  md_moods : option (list (string * string));
  md_themes : option (list (string * string))
}.

Definition mapping_values (m : option (list (string * string))) : list string :=
  match m with
  | None => []
  | Some kvs => map snd kvs
  end.

(** Single-space join of the summary, then the keyword values, then the
    mood values, then the theme values. *)
Definition compose (md : metadata) : string :=
  String.concat " "
    (md_summary md :: mapping_values (md_keywords md)
       ++ mapping_values (md_moods md) ++ mapping_values (md_themes md)).

(** A property value standing for an optional mapping: the object with
    those string values when the mapping is there, [undefined] (no such
    property) or [null] when it is absent. *)
Definition holds_mapping (v : jsval) (m : option (list (string * string))) : Prop :=
  match m with
  | None => v = JUndefined \/ v = JNull
  | Some kvs => v = JObject (map (fun kv => (fst kv, JString (snd kv))) kvs)
  end.

(** The service response [result] carries the metadata [md]; any other
    property it has is left free. *)
Definition carries (result : jsval) (md : metadata) : Prop :=
  exists props,
    result = JObject props
    /\ lookup "summary" props = JString (md_summary md)
    /\ holds_mapping (lookup "keywords" props) (md_keywords md)
    /\ holds_mapping (lookup "ddex moods" props) (md_moods md)
    /\ holds_mapping (lookup "ddex themes" props) (md_themes md).

(* ================================================================== *)
(** * The world: collections, trace, and the answers of the outside *)

Definition ObjectId : Type := N.
Definition Buffer : Type := list Byte.byte.
Definition number : Type := float.

(** A document of the [songs] collection, with the fields [songData] has
    (index.js, lines 104-118) and the [_id] the driver adds. *)
Module Doc.
Record song : Type := {
  _id : ObjectId;
  songUrl : string;
  audioFileId : ObjectId;
  filename : string;
  language : jsval;
  language_iso : jsval;
  summary : jsval;
  explicit : jsval;
  keywords : list jsval;
  ddex_moods : list jsval;
  ddex_themes : list jsval;
  flags : jsval;
  embedding : list number;
  created_at : Z
}.
End Doc.

(** A file of the GridFS bucket [songs_audio]. *)
Record gridfs_file : Type := {
  file_id : ObjectId;
  file_name : string;
  file_data : Buffer
}.

(** What is printed: the arguments of [console.log] / [console.error],
    unformatted. *)
Inductive console_arg : Type :=
| AStr (s : string)
| AId (i : ObjectId)
| AExn (e : exn).

(** The observable calls, in the order they happen.  [EvConnect] and
    [EvClose] record a call of [connectToDatabase] / [closeConnection] and
    whether it succeeded. *)
Inductive event : Type :=
| EvConnect (ok : bool)
| EvClose (ok : bool)
| EvLog (args : list console_arg)
| EvError (args : list console_arg).

Record world : Type := {
  songs : list Doc.song;
  songs_audio : list gridfs_file;
  trace : list event
}.

Definition emit (ev : event) (w : world) : world :=
  {| songs := songs w; songs_audio := songs_audio w; trace := trace w ++ [ev] |}.

(** The HTTP response of the analysis service; [fetch] does not reject on
    an HTTP error status, and the script reads nothing but the body. *)
Record response : Type := {
  json : outcome jsval
}.

(** What an engine makes of an array it has to sort: from the number of
    elements and the comparator read between positions (counted from 0),
    the positions in their new order. *)
Definition engine : Type := nat -> (nat -> nat -> number) -> list nat.

(** The answers of everything outside the script during one top-level
    call, one field per call site (named by its line in index.js).  An
    answer [inl e] is a rejected promise.  [sort_l144] is the engine the
    script runs on, for the order ECMAScript leaves to it. *)
Record env : Type := {
  connect_l78 : outcome unit;
  connect_l64 : outcome unit;
  findOne_l66 : outcome unit;
  fetch_l86 : string -> outcome response;
  embedContent : string -> outcome (list number);
  axios_get_l59 : string -> outcome Buffer;
  upload_l102 : outcome ObjectId;
  now_l117 : Z;
  insertOne_l121 : outcome ObjectId;
  closeConnection_l126 : outcome unit;
  connect_l135 : outcome unit;
  find_l138 : outcome unit;
  sort_l144 : engine;
  closeConnection_l152 : outcome unit
}.

(* ================================================================== *)
(** * Asynchronous computations: state and exceptions *)

Definition M (A : Type) : Type := world -> outcome A * world.

Definition ret {A} (a : A) : M A := fun w => (inr a, w).

Definition throw {A} (e : exn) : M A := fun w => (inl e, w).

Definition bind {A B} (m : M A) (k : A -> M B) : M B :=
  fun w =>
    match m w with
    | (inl e, w') => (inl e, w')
    | (inr a, w') => k a w'
    end.

(** A pure computation that may throw, or the settled answer of an
    external call. *)
Definition lift {A} (o : outcome A) : M A := fun w => (o, w).

Definition tell (ev : event) : M unit := fun w => (inr tt, emit ev w).

(** [try { body } catch (error) { handler } finally { fin }]: the handler
    runs when the body throws, [fin] runs in every case, and an exception
    of [fin] replaces the result. *)
Definition try_catch_finally {A} (body : M A) (handler : exn -> M A) (fin : M unit) : M A :=
  fun w =>
    let (r1, w1) := body w in
    let (r2, w2) := match r1 with
                    | inl e => handler e w1
                    | inr a => (inr a, w1)
                    end in
    let (r3, w3) := fin w2 in
    match r3 with
    | inl e => (inl e, w3)
    | inr _ => (r2, w3)
    end.

Declare Scope js_scope.
Delimit Scope js_scope with js.
Notation "x <- m ;; k" := (bind m (fun x => k))
  (at level 61, m at next level, right associativity) : js_scope.
Notation "m ;; k" := (bind m (fun _ => k))
  (at level 61, right associativity) : js_scope.

(* ================================================================== *)
(** * Library functions the script calls *)

(** [path.basename(p)] for a POSIX path: trailing slashes are ignored and
    the part after the last remaining slash is returned. *)
Definition basename (p : string) : string :=
  let is_slash (c : ascii) := Ascii.eqb c "/"%char in
  let fix drop_slashes (l : list ascii) : list ascii :=
    match l with
    | c :: r => if is_slash c then drop_slashes r else l
    | [] => []
    end in
  let fix take_name (l : list ascii) : list ascii :=
    match l with
    | c :: r => if is_slash c then [] else c :: take_name r
    | [] => []
    end in
  string_of_list_ascii
    (rev (take_name (drop_slashes (rev (list_ascii_of_string p))))).

(** [arr.reduce((acc, val, i) => f(acc, val, i), init)]. *)
Fixpoint reduce_from {A B} (f : B -> A -> nat -> B) (arr : list A) (i : nat) (acc : B) : B :=
  match arr with
  | [] => acc
  | val :: rest => reduce_from f rest (S i) (f acc val i)
  end.

Definition reduce {A B} (f : B -> A -> nat -> B) (arr : list A) (init : B) : B :=
  reduce_from f arr 0 init.

(** [vec[i]] used as a number: an index past the end reads [undefined],
    which arithmetic turns into [NaN]. *)
Definition at_index (vec : list number) (i : nat) : number := nth i vec nan.

(** Numbers as text (line 149).  A finite number is [m * 2^e] with a
    sign, which is what [Prim2SF] reads off it; all the arithmetic here is
    exact, on integers. *)
Section NumberToString.

Open Scope string_scope.
Open Scope Z_scope.

(** The decimal digits of a non-negative integer. *)
Definition digits (n : Z) : string := NilZero.string_of_uint (N.to_uint (Z.to_N n)).

Definition zeros (n : nat) : string := string_of_list_ascii (repeat "0"%char n).

(** The digits of [n / 10^f] with [f] digits behind the point. *)
Definition fixed_point (n : Z) (f : nat) : string :=
  let m := digits n in
  match f with
  | O => m
  | _ =>
      let m := if (String.length m <=? f)%nat then zeros (S f - String.length m) ++ m else m in
      let k := String.length m in
      substring 0 (k - f) m ++ "." ++ substring (k - f) f m
  end.

(** The integer nearest to [m * 2^e * 10^f], the larger one of two
    equally near. *)
Definition nearest_scaled (m : positive) (e : Z) (f : nat) : Z :=
  let scaled := Zpos m * 10 ^ Z.of_nat f in
  if 0 <=? e then scaled * 2 ^ e
  else (2 * scaled + 2 ^ (- e)) / 2 ^ (1 - e).

(** Whether the integer [v] reads back as the number [m * 2^e], for
    [e >= 0]: it lies within half a gap of it, the ends counted in when
    [m] is even. *)
Definition reads_back (m : positive) (e : Z) (v : Z) : bool :=
  let x := Zpos m * 2 ^ e in
  let above := 2 * 2 ^ e in
  let below := if (Zpos m =? 2 ^ 52) then 2 ^ e else 2 * 2 ^ e in
  if Z.even (Zpos m)
  then (4 * x - below <=? 4 * v) && (4 * v <=? 4 * x + above)
  else (4 * x - below <? 4 * v) && (4 * v <? 4 * x + above).

(** Number::toString on an integer [x = m * 2^e] of [n] digits: the digits
    [s], as few as read back as [x], and among those of that length the
    nearest to [x], the even one of two equally near. *)
Fixpoint shortest (steps : nat) (k : Z) (m : positive) (e : Z) (n : Z) : Z * Z :=
  let x := Zpos m * 2 ^ e in
  let unit := 10 ^ (n - k) in
  let lower := x / unit in
  let upper := lower + 1 in
  let pick (s : Z) := if s =? 10 ^ k then (10 ^ (k - 1), n + 1) else (s, n) in
  let nearer :=
    match Z.compare (x - lower * unit) (upper * unit - x) with
    | Lt => lower
    | Gt => upper
    | Eq => if Z.even lower then lower else upper
    end in
  match steps with
  | O => pick nearer
  | S steps' =>
      match reads_back m e (lower * unit), reads_back m e (upper * unit) with
      | true, true => pick nearer
      | true, false => pick lower
      | false, true => pick upper
      | false, false => shortest steps' (k + 1) m e n
      end
  end.

(** Number::toString for [m * 2^e >= 10^21]: exponential notation. *)
Definition exponential (m : positive) (e : Z) : string :=
  let n := Z.of_nat (String.length (digits (Zpos m * 2 ^ e))) in
  let (s, n) := shortest 16 1 m e n in
  let d := digits s in
  let mantissa :=
    match d with
    | String c EmptyString => d
    | String c rest => String c ("." ++ rest)
    | EmptyString => d
    end in
  mantissa ++ "e+" ++ digits (n - 1).

(** [x.toFixed(f)] for [0 <= f <= 100] (Number.prototype.toFixed):
    [NaN] and the infinities by their names; a number of [10^21] or more
    in exponential notation; any other with exactly [f] digits behind the
    point, rounded to the nearest, and a sign whenever the number is below
    zero, also when all its digits come out as zeros. *)
Definition toFixed (x : number) (f : nat) : string :=
  match Prim2SF x with
  | S754_nan => "NaN"
  | S754_infinity s => if s then "-Infinity" else "Infinity"
  | S754_zero _ => fixed_point 0 f
  | S754_finite s m e =>
      (if s then "-" else "")
      ++ (if (0 <=? e) && (10 ^ 21 <=? Zpos m * 2 ^ e)
          then exponential m e
          else fixed_point (nearest_scaled m e f) f)
  end.

End NumberToString.

Section ArraySort.

Variable A : Type.
Variable order : engine.
Variable comparefn : A -> A -> number.

(** SortCompare of ECMAScript: a comparator result that is [NaN] counts
    as [+0]. *)
Definition SortCompare (x y : A) : number :=
  let v := comparefn x y in
  if is_nan v then 0%float else v.

(** [x], which stood before every element of [l], goes behind exactly the
    leading elements that the comparator puts strictly before it. *)
Fixpoint insert_stable (x : A) (l : list A) : list A :=
  match l with
  | [] => [x]
  | y :: r =>
      if (0 <? SortCompare x y)%float then y :: insert_stable x r
      else x :: y :: r
  end.

(** The stable sorted order, by insertion from the right. *)
Fixpoint stable_sort (arr : list A) : list A :=
  match arr with
  | [] => []
  | x :: r => insert_stable x (stable_sort r)
  end.

(** [a <C b], [a =C b] and [a >C b] of ECMAScript. *)
Definition before (a b : A) : bool := (comparefn a b <? 0)%float.
Definition tied (a b : A) : bool := (comparefn a b =? 0)%float.
Definition behind (a b : A) : bool := (0 <? comparefn a b)%float.

(** ECMAScript's consistent comparator for the elements of [arr]: no
    result is [NaN]; [=C] is reflexive, symmetric and transitive; [<C]
    and [>C] are transitive. *)
Definition consistent (arr : list A) : bool :=
  forallb (fun a =>
    tied a a
    && forallb (fun b =>
         negb (is_nan (comparefn a b))
         && implb (tied a b) (tied b a)
         && forallb (fun c =>
              implb (tied a b && tied b c) (tied a c)
              && implb (before a b && before b c) (before a c)
              && implb (behind a b && behind b c) (behind a c)) arr) arr) arr.

(** The comparator between two positions of [arr]. *)
Definition compare_at (arr : list A) (i j : nat) : number :=
  match nth_error arr i, nth_error arr j with
  | Some x, Some y => comparefn x y
  | _, _ => nan
  end.

(** The positions an engine gives, read so that every element comes once:
    a position named again or outside the array is passed over, and the
    positions left out follow in their old order. *)
Definition each_once (n : nat) (positions : list nat) : list nat :=
  let named := nodup Nat.eq_dec (filter (fun i => i <? n)%nat positions) in
  (named ++ filter (fun i => negb (existsb (Nat.eqb i) named)) (seq 0 n))%list.

(** The elements of [arr] at the given positions. *)
Definition at_positions (arr : list A) (positions : list nat) : list A :=
  flat_map (fun i => match nth_error arr i with
                     | Some x => [x]
                     | None => []
                     end) positions.

(** [arr.sort(comparefn)].  ECMAScript fixes the result when the
    comparator is consistent on the elements: the sorted order, stable
    since ES2019.  When it is not, the order is implementation-defined:
    the elements stay the same, in the order the engine leaves them. *)
Definition sort (arr : list A) : list A :=
  if consistent arr then stable_sort arr
  else at_positions arr
         (each_once (List.length arr) (order (List.length arr) (compare_at arr))).

End ArraySort.

Arguments SortCompare {A} comparefn x y.
Arguments insert_stable {A} comparefn x l.
Arguments stable_sort {A} comparefn arr.
Arguments before {A} comparefn a b.
Arguments tied {A} comparefn a b.
Arguments behind {A} comparefn a b.
Arguments consistent {A} comparefn arr.
Arguments compare_at {A} comparefn arr i j.
Arguments at_positions {A} arr positions.
Arguments sort {A} order comparefn arr.

(** One engine: V8, which Node runs, on an array of fewer than 64
    elements, where its TimSort makes a single run.  The leading run is
    counted (strictly descending, or else non-descending) and reversed
    when it descends; each element behind it is then put in by binary
    insertion.  A comparator result that is [NaN] counts as [+0].  (On a
    longer array V8 cuts several runs and merges them; the order below
    is then another engine's.) *)
Section ShortArrays.

Variable comparator : nat -> nat -> number.

Definition order_at (x y : nat) : number :=
  let v := comparator x y in
  if is_nan v then 0%float else v.

(** How far the run goes on behind [previous]. *)
Fixpoint run_on (descending : bool) (previous : nat) (rest : list nat) : nat :=
  match rest with
  | [] => 0
  | current :: rest' =>
      if Bool.eqb (order_at current previous <? 0)%float descending
      then S (run_on descending current rest')
      else 0
  end.

(** CountAndMakeRun: the leading run, made ascending, and what is left. *)
Definition leading_run (arr : list nat) : list nat * list nat :=
  match arr with
  | low :: second :: rest =>
      let descending := (order_at second low <? 0)%float in
      let runLength := (2 + run_on descending second rest)%nat in
      (if descending then rev (firstn runLength arr) else firstn runLength arr,
       skipn runLength arr)
  | _ => (arr, [])
  end.

(** The binary search of BinaryInsertionSort for [pivot] between [left]
    and [right]. *)
Fixpoint search (steps : nat) (sorted : list nat) (pivot left right : nat) : nat :=
  match steps with
  | O => left
  | S steps' =>
      if (left <? right)%nat
      then
        let mid := (left + Nat.div2 (right - left))%nat in
        if (order_at pivot (nth mid sorted O) <? 0)%float
        then search steps' sorted pivot left mid
        else search steps' sorted pivot (S mid) right
      else left
  end.

Definition binary_insert (sorted : list nat) (pivot : nat) : list nat :=
  let left := search (List.length sorted) sorted pivot 0 (List.length sorted) in
  (firstn left sorted ++ pivot :: skipn left sorted)%list.

End ShortArrays.

Definition short_array_order : engine :=
  fun n comparator =>
    let (run, rest) := leading_run comparator (seq 0 n) in
    fold_left (binary_insert comparator) rest run.

(** [arr.slice(0, n)]. *)
Definition slice0 {A} (n : nat) (arr : list A) : list A := firstn n arr.

(* ================================================================== *)
(** * Cosine similarity (index.js, lines 70-75) *)

Section Cosine.

Open Scope float_scope.

Definition cosineSimilarity (vecA vecB : list number) : number :=
  let dot := reduce (fun sum val i => sum + val * at_index vecB i) vecA 0 in
  let magA := sqrt (reduce (fun sum val _ => sum + val * val) vecA 0) in
  let magB := sqrt (reduce (fun sum val _ => sum + val * val) vecB 0) in
  dot / (magA * magB).

End Cosine.

(* ================================================================== *)
(** * Database and blob-store operations *)

Section Storage.

Open Scope js_scope.

(** Modelled from the spec: db.js, which exports [connectToDatabase], is
    not among the sources.  The specification names connection failure a
    [DatabaseError], so a call either yields the database handle or
    rejects; the trace records the call. *)
Definition connectToDatabase (answer : outcome unit) : M unit :=
  fun w =>
    match answer with
    | inl err => (inl err, emit (EvConnect false) w)
    | inr _ => (inr tt, emit (EvConnect true) w)
    end.

(** Modelled from the spec: db.js, which exports [closeConnection], is not
    among the sources.  A call releases the storage connection, or
    rejects; the trace records the call. *)
Definition closeConnection (answer : outcome unit) : M unit :=
  fun w =>
    match answer with
    | inl err => (inl err, emit (EvClose false) w)
    | inr _ => (inr tt, emit (EvClose true) w)
    end.

(** [collection.findOne({ songUrl: url })]: the first document with that
    [songUrl], or [null]. *)
Definition findOne (answer : outcome unit) (url : string) : M (option Doc.song) :=
  lift answer ;;
  fun w => (inr (find (fun d => String.eqb (Doc.songUrl d) url) (songs w)), w).

(** [collection.find({}).toArray()]. *)
Definition find_toArray (answer : outcome unit) : M (list Doc.song) :=
  lift answer ;;
  fun w => (inr (songs w), w).

(** [collection.insertOne(songData)]: on success the document is stored
    under the [_id] the driver gave it. *)
Definition insertOne (answer : outcome ObjectId) (songData : ObjectId -> Doc.song)
  : M ObjectId :=
  insertedId <- lift answer ;;
  fun w =>
    (inr insertedId,
     {| songs := songs w ++ [songData insertedId];
        songs_audio := songs_audio w;
        trace := trace w |}).

(** index.js, lines 44-56: the upload stream finishes with the file's id,
    or errors. *)
Definition uploadToGridFS (answer : outcome ObjectId) (buffer : Buffer) (filename : string)
  : M ObjectId :=
  id <- lift answer ;;
  fun w =>
    (inr id,
     {| songs := songs w;
        songs_audio := songs_audio w
                         ++ [{| file_id := id; file_name := filename; file_data := buffer |}];
        trace := trace w |}).

(** index.js, lines 58-61. *)
Definition getSongBuffer (e : env) (url : string) : M Buffer :=
  lift (axios_get_l59 e url).

(** index.js, lines 63-68. *)
Definition songExists (e : env) (url : string) : M bool :=
  connectToDatabase (connect_l64 e) ;;
  song <- findOne (findOne_l66 e) url ;;
  ret (match song with Some _ => true | None => false end).

End Storage.

(* ================================================================== *)
(** * Ingestion (index.js, lines 77-128) *)

Section Ingestion.

Open Scope string_scope.
Open Scope js_scope.

(** The three value lists of [songData] (lines 112-114): here
    [Object.values] is applied to the property itself. *)
Definition values_of (result : jsval) (name : string) : outcome (list jsval) :=
  obind (get result name) Object_values.

(** The object literal [songData] of lines 104-118, waiting for the [_id]
    the driver gives it; its properties are evaluated in source order. *)
Definition songData_of (e : env) (songUrl : string) (result : jsval)
  (gridFSId : ObjectId) (fileName : string) (embedding : list number)
  : outcome (ObjectId -> Doc.song) :=
  (let? language := get result "language" in
   let? language_iso := get result "language-iso" in
   let? summary := get result "summary" in
   let? explicit := get result "explicit" in
   let? keywords := values_of result "keywords" in
   let? ddex_moods := values_of result "ddex moods" in
   let? ddex_themes := values_of result "ddex themes" in
   let? flags := get result "flags" in
   inr (fun id =>
          {| Doc._id := id;
             Doc.songUrl := songUrl;
             Doc.audioFileId := gridFSId;
             Doc.filename := fileName;
             Doc.language := language;
             Doc.language_iso := language_iso;
             Doc.summary := summary;
             Doc.explicit := explicit;
             Doc.keywords := keywords;
             Doc.ddex_moods := ddex_moods;
             Doc.ddex_themes := ddex_themes;
             Doc.flags := flags;
             Doc.embedding := embedding;
             Doc.created_at := now_l117 e |}))%outcome.

(** Lines 86-122: what runs inside [try] once the song is known to be
    new. *)
Definition ingestNew (e : env) (songUrl : string) : M unit :=
  response <- lift (fetch_l86 e songUrl) ;;
  result <- lift (json response) ;;
  combinedText_ <- lift (combinedText result) ;;
  embedding <- lift (embedContent e combinedText_) ;;
  songBuffer <- getSongBuffer e songUrl ;;
  let fileName := basename songUrl in
  gridFSId <- uploadToGridFS (upload_l102 e) songBuffer fileName ;;
  songData <- lift (songData_of e songUrl result gridFSId fileName embedding) ;;
  insertedId <- insertOne (insertOne_l121 e) songData ;;
  tell (EvLog [AStr "Inserted song into DB with ID:"; AId insertedId]).

Definition fetchLyricsAndStore (e : env) (songUrl : string) : M unit :=
  connectToDatabase (connect_l78 e) ;;
  try_catch_finally
    (exists_ <- songExists e songUrl ;;
     if exists_ : bool
     then tell (EvLog [AStr "Song already exists in the database."])
     else ingestNew e songUrl)
    (fun error => tell (EvError [AStr "Error in fetchLyricsAndStore:"; AExn error]))
    (closeConnection (closeConnection_l126 e)).

End Ingestion.

(* ================================================================== *)
(** * Similarity search (index.js, lines 130-154) *)

(** An element of [similarities]. *)
Record scored : Type := {
  songId : ObjectId;
  similarity : number;
  songData : Doc.song
}.

Section Search.

Open Scope string_scope.
Open Scope js_scope.

(** Line 139-142. *)
Definition score (queryEmbedding : list number) (song : Doc.song) : scored :=
  {| songId := Doc._id song;
     similarity := cosineSimilarity queryEmbedding (Doc.embedding song);
     songData := song |}.

(** The comparator of line 144. *)
Definition bySimilarityDesc (a b : scored) : number :=
  (similarity b - similarity a)%float.

(** Lines 139-145 without their effects: score, sort, keep five. *)
Definition rank (order : engine) (queryEmbedding : list number) (corpus : list Doc.song)
  : list scored :=
  slice0 5 (sort order bySimilarityDesc (map (score queryEmbedding) corpus)).

Fixpoint forEach {A} (arr : list A) (f : A -> M unit) : M unit :=
  match arr with
  | [] => ret tt
  | x :: rest => f x ;; forEach rest f
  end.

Definition findSimilarSongs (e : env) (queryText : string) : M (list scored) :=
  queryEmbedding <- lift (embedContent e queryText) ;;
  connectToDatabase (connect_l135 e) ;;
  songs_ <- find_toArray (find_l138 e) ;;
  let topSongs := rank (sort_l144 e) queryEmbedding songs_ in
  tell (EvLog [AStr "🎵 Top 5 similar songs:"]) ;;
  forEach topSongs (fun song =>
    tell (EvLog [AStr ("- " ++ ToString (Doc.summary (songData song))
                       ++ " | Similarity: " ++ toFixed (similarity song) 4)])) ;;
  closeConnection (closeConnection_l152 e) ;;
  ret topSongs.

End Search.

(* ================================================================== *)
(** * Numbers: classes and order of binary64 values *)

Module Ieee.

#[local] Open Scope Z_scope.

(** A number that is [NaN]. *)
Definition FNaN (x : float) : Prop := Prim2SF x = S754_nan.

(** A number that is [+0] or [-0]. *)
Definition FZero (x : float) : Prop := exists s, Prim2SF x = S754_zero s.

(** Zero or [NaN]: what sums of products with a zero vector stay in. *)
Definition ZeroOrNaN (x : float) : Prop := FZero x \/ FNaN x.

Abbreviation emin := (SpecFloat.emin prec emax).
Abbreviation fexp := (SpecFloat.fexp prec emax).

(** The top of the scale: beyond every finite binary64 number. *)
Definition top : Z := 2 ^ (emax - emin).

(** The position of a number on the integer scale of the smallest
    subnormal: a finite [m * 2^e] sits at [m * 2^(e - emin)], the
    infinities at the two ends. *)
Definition scale (x : spec_float) : Z :=
  match x with
  | S754_zero _ => 0
  | S754_infinity s => cond_Zopp s top
  | S754_nan => 0
  | S754_finite s m e => cond_Zopp s (Zpos m * 2 ^ (e - emin))
  end.

(** The shape of a number: of the given sign, and neither zero nor
    [NaN]. *)
Definition signed_nonzero (s : bool) (x : spec_float) : Prop :=
  x = S754_infinity s \/ exists m e, x = S754_finite s m e.

(** A number that is a zero or finite. *)
Definition bounded_number (x : spec_float) : Prop :=
  match x with
  | S754_zero _ | S754_finite _ _ _ => True
  | _ => False
  end.

End Ieee.
Import Ieee.

(* ================================================================== *)
(** * Notions the statements are written with *)

(** The numerator of [cosineSimilarity]: the sum runs over the indices of
    [vecA]. *)
Definition dot (vecA vecB : list number) : number :=
  reduce (fun sum val i => sum + val * at_index vecB i)%float vecA 0%float.

(** [magA] and [magB] of [cosineSimilarity]. *)
Definition magnitude (vec : list number) : number :=
  sqrt (reduce (fun sum val (_ : nat) => sum + val * val)%float vec 0%float).

(** The position of a JavaScript number on the integer scale. *)
Definition position (x : number) : Z := scale (Prim2SF x).

(** Every score of the corpus against the query is a finite number:
    neither [NaN] nor an infinity. *)
Definition finite_scores (queryEmbedding : list number) (corpus : list Doc.song) : bool :=
  forallb (fun song => is_finite (cosineSimilarity queryEmbedding (Doc.embedding song)))
    corpus.

(** Non-increasing score, in the numbers' own comparison. *)
Definition by_score_desc (a b : scored) : Prop :=
  (similarity b <=? similarity a)%float = true.

(** An element of [similarities] whose score is a number. *)
Definition numeric (a : scored) : Prop := is_nan (similarity a) = false.

(** An element of [similarities] whose score is a finite number. *)
Definition finite (a : scored) : Prop := is_finite (similarity a) = true.

(** Non-increasing order of an integer key. *)
Definition key_desc {A} (key : A -> Z) (a b : A) : Prop := (key b <= key a)%Z.

(** The external stages of lines 86-102, in order: metadata fetch, parsing
    of the body, text composition, embedding, payload fetch, blob upload. *)
Definition stages (e : env) (songUrl : string)
  : outcome (jsval * list number * Buffer * ObjectId) :=
  (let? response := fetch_l86 e songUrl in
   let? result := json response in
   let? text := combinedText result in
   let? embedding := embedContent e text in
   let? songBuffer := axios_get_l59 e songUrl in
   let? gridFSId := upload_l102 e in
   inr (result, embedding, songBuffer, gridFSId))%outcome.

(** The document the Dedup Gate's query finds for a source key. *)
Definition stored (songUrl : string) (w : world) : option Doc.song :=
  find (fun d => String.eqb (Doc.songUrl d) songUrl) (songs w).

(** How many documents of the collection have that source key. *)
Definition records_for (songUrl : string) (docs : list Doc.song) : nat :=
  List.length (filter (fun d => String.eqb (Doc.songUrl d) songUrl) docs).

(** The document a run of [fetchLyricsAndStore] adds to [songs], if it adds
    one. *)
Definition inserted (e : env) (songUrl : string) (w : world) : option Doc.song :=
  match connect_l78 e, connect_l64 e, findOne_l66 e, stored songUrl w, stages e songUrl with
  | inr _, inr _, inr _, None, inr (result, embedding, _, gridFSId) =>
      match songData_of e songUrl result gridFSId (basename songUrl) embedding,
            insertOne_l121 e with
      | inr songData, inr id => Some (songData id)
      | _, _ => None
      end
  | _, _, _, _, _ => None
  end.

Definition opt_list {A} (o : option A) : list A :=
  match o with Some a => [a] | None => [] end.

(** Every call outside the script answers during a run for [songUrl], and
    the response has what the record needs. *)
Definition all_answer (e : env) (songUrl : string) : bool :=
  is_ok (connect_l78 e) && is_ok (connect_l64 e) && is_ok (findOne_l66 e)
  && match stages e songUrl with
     | inr (result, embedding, _, gridFSId) =>
         is_ok (songData_of e songUrl result gridFSId (basename songUrl) embedding)
     | inl _ => false
     end
  && is_ok (insertOne_l121 e).


(** What a run prints between acquiring and releasing the connection. *)
Definition reports (new : list event) : Prop :=
  In (EvLog [AStr "Song already exists in the database."]) new
  \/ (exists id, In (EvLog [AStr "Inserted song into DB with ID:"; AId id]) new)
  \/ (exists err, In (EvError [AStr "Error in fetchLyricsAndStore:"; AExn err]) new).

Definition is_close (ev : event) : bool :=
  match ev with EvClose _ => true | _ => false end.

(** Calls of [closeConnection] recorded in a trace. *)
Definition closes (t : list event) : nat := List.length (filter is_close t).

Definition is_acquire (ev : event) : bool :=
  match ev with EvConnect true => true | _ => false end.

(** Successful calls of [connectToDatabase] recorded in a trace. *)
Definition acquisitions (t : list event) : nat := List.length (filter is_acquire t).

(* ================================================================== *)
(** * Sample runs *)

Section Samples.

Open Scope string_scope.

Definition empty_world : world := {| songs := []; songs_audio := []; trace := [] |}.

(** A complete answer of the analysis service. *)
Definition full_result : jsval :=
  JObject [("summary", JString "A song about the sea");
           ("language", JString "english");
           ("language-iso", JString "en");
           ("explicit", JBool false);
           ("keywords", JObject [("1", JString "sea"); ("2", JString "storm")]);
           ("ddex moods", JObject [("1", JString "calm")]);
           ("ddex themes", JObject [("1", JString "nature")]);
           ("flags", JObject [])].

(** An answer with a summary and no mapping at all. *)
Definition summary_only : jsval := JObject [("summary", JString "s")].

(** An outside world in which every call succeeds: the service answers
    [result], the embedding model answers [vec]. *)
Definition answering (result : jsval) (vec : list number) (id : ObjectId) : env :=
  {| connect_l78 := inr tt;
     connect_l64 := inr tt;
     findOne_l66 := inr tt;
     fetch_l86 := fun _ => inr {| json := inr result |};
     embedContent := fun _ => inr vec;
     axios_get_l59 := fun _ => inr [Byte.x49; Byte.x44; Byte.x33];
     upload_l102 := inr (id + 100)%N;
     now_l117 := 1700000000000;
     insertOne_l121 := inr id;
     closeConnection_l126 := inr tt;
     connect_l135 := inr tt;
     find_l138 := inr tt;
     sort_l144 := short_array_order;
     closeConnection_l152 := inr tt |}.

(** The same, with the database unreachable when the operation starts. *)
Definition unreachable (result : jsval) (vec : list number) (id : ObjectId) : env :=
  let e := answering result vec id in
  {| connect_l78 := inl (Rejected "MongoNetworkError");
     connect_l64 := connect_l64 e;
     findOne_l66 := findOne_l66 e;
     fetch_l86 := fetch_l86 e;
     embedContent := embedContent e;
     axios_get_l59 := axios_get_l59 e;
     upload_l102 := upload_l102 e;
     now_l117 := now_l117 e;
     insertOne_l121 := insertOne_l121 e;
     closeConnection_l126 := closeConnection_l126 e;
     connect_l135 := connect_l135 e;
     find_l138 := find_l138 e;
     sort_l144 := sort_l144 e;
     closeConnection_l152 := closeConnection_l152 e |}.

(** The same as [answering], with the corpus query of line 138 failing. *)
Definition scan_fails (vec : list number) : env :=
  let e := answering full_result vec 1%N in
  {| connect_l78 := connect_l78 e;
     connect_l64 := connect_l64 e;
     findOne_l66 := findOne_l66 e;
     fetch_l86 := fetch_l86 e;
     embedContent := embedContent e;
     axios_get_l59 := axios_get_l59 e;
     upload_l102 := upload_l102 e;
     now_l117 := now_l117 e;
     insertOne_l121 := insertOne_l121 e;
     closeConnection_l126 := closeConnection_l126 e;
     connect_l135 := connect_l135 e;
     find_l138 := inl (Rejected "MongoServerError");
     sort_l144 := sort_l144 e;
     closeConnection_l152 := closeConnection_l152 e |}.

Definition mayday : string := "https://storage.googleapis.com/musikame-files/mayday.mp3".
Definition other_song : string := "https://storage.googleapis.com/musikame-files/other.mp3".

(** A stored record with the given embedding. *)
Definition record_with (id : ObjectId) (url : string) (vec : list number) : Doc.song :=
  {| Doc._id := id;
     Doc.songUrl := url;
     Doc.audioFileId := (id + 100)%N;
     Doc.filename := basename url;
     Doc.language := JString "english";
     Doc.language_iso := JString "en";
     Doc.summary := JString url;
     Doc.explicit := JBool false;
     Doc.keywords := [];
     Doc.ddex_moods := [];
     Doc.ddex_themes := [];
     Doc.flags := JObject [];
     Doc.embedding := vec;
     Doc.created_at := 1700000000000 |}.

(** The corpus of the specification's scenario: embeddings [1,0], [0,1]
    and [1,1]. *)
Definition scenario_corpus : list Doc.song :=
  [record_with 1%N "a" [1; 0]%float;
   record_with 2%N "b" [0; 1]%float;
   record_with 3%N "c" [1; 1]%float].

Definition scenario_world : world :=
  {| songs := scenario_corpus; songs_audio := []; trace := [] |}.

(** A corpus whose first record has an embedding of zeros. *)
Definition silent_corpus : list Doc.song :=
  [record_with 4%N "silence" [0; 0]%float;
   record_with 1%N "a" [1; 0]%float;
   record_with 2%N "b" [0; 1]%float].

(** Seven records whose scores against [1,0] are finite: the two best
    stand third and sixth, the next one last. *)
Definition wide_corpus : list Doc.song :=
  [record_with 1%N "a" [0; 1]%float;
   record_with 2%N "b" [1; 1]%float;
   record_with 3%N "c" [1; 0]%float;
   record_with 4%N "d" [1; 1]%float;
   record_with 5%N "e" [0; 1]%float;
   record_with 6%N "f" [1; 0]%float;
   record_with 7%N "g" [2; 1]%float].

(** Six records of which the fifth has a stored vector shorter than the
    query [1,0], and the sixth is the query itself. *)
Definition drifted_corpus : list Doc.song :=
  [record_with 1%N "a" [1; 3]%float;
   record_with 2%N "b" [1; 1]%float;
   record_with 3%N "c" [2; 1]%float;
   record_with 4%N "d" [1; 2]%float;
   record_with 5%N "e" [1]%float;
   record_with 6%N "f" [1; 0]%float].


End Samples.

(* ================================================================== *)
(** * Streams into buffers (index.js, lines 35-42) *)

(** What a readable stream emits, one event after the other. *)
Inductive stream_event : Type :=
| Data (chunk : Buffer)
| End_
| Error (err : exn).

(** The state of a promise. *)
Inductive promise (A : Type) : Type :=
| Pending
| Fulfilled (a : A)
| RejectedWith (err : exn).

Arguments Pending {A}.
Arguments Fulfilled {A} a.
Arguments RejectedWith {A} err.

(** [resolve] and [reject] act on a pending promise only. *)
Definition settle {A} (p q : promise A) : promise A :=
  match p with
  | Pending => q
  | _ => p
  end.

(** The array [chunks] and the promise returned by [streamToBuffer]. *)
Record collector : Type := {
  chunks : list Buffer;
  returned : promise Buffer
}.

(** The three listeners of lines 38-40: ['data'] pushes the chunk, ['end']
    resolves with [Buffer.concat(chunks)], ['error'] rejects. *)
Definition on_event (c : collector) (ev : stream_event) : collector :=
  match ev with
  | Data chunk => {| chunks := chunks c ++ [chunk]; returned := returned c |}
  | End_ => {| chunks := chunks c;
               returned := settle (returned c) (Fulfilled (List.concat (chunks c))) |}
  | Error err => {| chunks := chunks c;
                    returned := settle (returned c) (RejectedWith err) |}
  end.

(** [streamToBuffer(stream)], by the events the stream emits. *)
Definition streamToBuffer (stream : list stream_event) : promise Buffer :=
  returned (fold_left on_event stream {| chunks := []; returned := Pending |}).

(* ================================================================== *)
(** * Download from the bucket (index.js, lines 156-170) *)

(** The argument [fileId], by what [new ObjectId(fileId)] makes of it: an
    identifier, or a [BSONError] thrown for an input that is none. *)
Inductive file_ref : Type :=
| WellFormed (id : ObjectId)
| Malformed.

(** The answers of the outside during one download: the connection of line
    157, whether the download stream runs to its end, and whether the write
    stream of line 162 finishes. *)
Record download_env : Type := {
  connect_l157 : outcome unit;
  downloadStream_l161 : outcome unit;
  writeStream_l162 : outcome unit
}.

(** What a download does to the host besides settling its promise.
    [Written]: the file holds the data, completely.  [Opened]: the file was
    created or truncated by [fs.createWriteStream] and did not get its
    data to the end.  [Uncaught]: an ['error'] event that no listener
    hears is thrown by the emitter, and the process exits on it. *)
Inductive host_effect : Type :=
| Written (path : string) (data : Buffer)
| Opened (path : string)
| Uncaught (err : exn).

(** [bucket.openDownloadStream(id)] finds the file of that [_id]. *)
Definition bucket_file (id : ObjectId) (w : world) : option gridfs_file :=
  find (fun f => N.eqb (file_id f) id) (songs_audio w).

(** What the download stream comes to: the file read to its end, or the
    ['error'] it emits when the bucket has no file of that [_id] or the
    read fails. *)
Definition downloadStream_read (d : download_env) (id : ObjectId) (w : world)
  : outcome gridfs_file :=
  match bucket_file id w, downloadStream_l161 d with
  | None, _ => inl (Rejected "FileNotFound")
  | Some _, inl err => inl err
  | Some f, inr _ => inr f
  end.

(** [downloadSongFromGridFS(fileId, outputPath = './downloaded_song.mp3')].
    A throw of [new ObjectId] inside the executor rejects the promise
    before any stream exists.  Otherwise both streams are made, and
    [createWriteStream] opens the output file.  [pipe] returns the write
    stream, so the ['error'] listener of line 164 hears the write stream
    only: an error of the write stream rejects, while an error of the
    download stream has no listener, so that the promise is left pending
    and the process exits on the uncaught error, the output file opened
    and incomplete.  ['finish'] logs and resolves with the path.  What an
    erroring write stream leaves of the file is not recorded; when both
    streams fail, the error of the write stream, which is local, is taken
    to come first. *)
Definition downloadSongFromGridFS (d : download_env) (fileId : file_ref)
  (outputPath : option string) (w : world) : promise string * world * list host_effect :=
  let outputPath := match outputPath with
                    | Some path => path
                    | None => "./downloaded_song.mp3"%string
                    end in
  match connectToDatabase (connect_l157 d) w with
  | (inl err, w1) => (RejectedWith err, w1, [])
  | (inr _, w1) =>
      match fileId with
      | Malformed => (RejectedWith (Rejected "BSONError"), w1, [])
      | WellFormed id =>
          match writeStream_l162 d, downloadStream_read d id w1 with
          | inl err, inr _ => (RejectedWith err, w1, [])
          | inl err, inl lost => (RejectedWith err, w1, [Uncaught lost])
          | inr _, inl lost => (Pending, w1, [Opened outputPath; Uncaught lost])
          | inr _, inr f =>
              (Fulfilled outputPath,
               emit (EvLog [AStr "✅ Download complete:"; AStr outputPath]) w1,
               [Written outputPath (file_data f)])
          end
      end
  end.

(* ================================================================== *)
(** * More notions the statements are written with *)

(** No two documents of the collection have the same source key. *)
Definition unique_keys (docs : list Doc.song) : Prop :=
  NoDup (map Doc.songUrl docs).

(** The line the search prints for one result (line 149): one string,
    the summary as the template renders it and the score with four
    digits behind the point. *)
Definition similarity_line (song : scored) : event :=
  EvLog [AStr ("- " ++ ToString (Doc.summary (songData song))
               ++ " | Similarity: " ++ toFixed (similarity song) 4)%string].


(** An outside world in which the existence query of line 66 fails. *)
Definition lookup_fails : env :=
  let e := answering full_result [1; 0]%float 1%N in
  {| connect_l78 := connect_l78 e;
     connect_l64 := connect_l64 e;
     findOne_l66 := inl (Rejected "MongoServerError");
     fetch_l86 := fetch_l86 e;
     embedContent := embedContent e;
     axios_get_l59 := axios_get_l59 e;
     upload_l102 := upload_l102 e;
     now_l117 := now_l117 e;
     insertOne_l121 := insertOne_l121 e;
     closeConnection_l126 := closeConnection_l126 e;
     connect_l135 := connect_l135 e;
     find_l138 := find_l138 e;
     sort_l144 := sort_l144 e;
     closeConnection_l152 := closeConnection_l152 e |}.

(** An outside world in which the embedding model fails. *)
Definition embedding_fails : env :=
  let e := answering full_result [1; 0]%float 1%N in
  {| connect_l78 := connect_l78 e;
     connect_l64 := connect_l64 e;
     findOne_l66 := findOne_l66 e;
     fetch_l86 := fetch_l86 e;
     embedContent := fun _ => inl (Rejected "GoogleGenerativeAIError");
     axios_get_l59 := axios_get_l59 e;
     upload_l102 := upload_l102 e;
     now_l117 := now_l117 e;
     insertOne_l121 := insertOne_l121 e;
     closeConnection_l126 := closeConnection_l126 e;
     connect_l135 := connect_l135 e;
     find_l138 := find_l138 e;
     sort_l144 := sort_l144 e;
     closeConnection_l152 := closeConnection_l152 e |}.

(** A download for which everything answers. *)
Definition download_answers : download_env :=
  {| connect_l157 := inr tt; downloadStream_l161 := inr tt; writeStream_l162 := inr tt |}.

(** The dot product as a sum over paired components. *)
Definition paired_sum (pairs : list (number * number)) (acc : number) : number :=
  fold_left (fun sum p => (sum + fst p * snd p)%float) pairs acc.

(* ================================================================== *)
(** * Text composition: the code against the specification's wording *)

Section ComposeFacts.

Lemma join_elem_strings (l : list string) : map join_elem (map JString l) = l.
Proof.
  induction l as [|s l IH]; simpl; [reflexivity|].
  now rewrite IH.
Qed.

(** With the [|| {}] of lines 91-93, a mapping that is there gives its
    values and one that is absent gives none. *)
Lemma values_or_empty (v : jsval) (m : option (list (string * string))) :
  holds_mapping v m ->
  Object_values (or_ v (JObject [])) = inr (map JString (mapping_values m)).
Proof.
  destruct m as [kvs|]; simpl.
  - intros ->. unfold or_; simpl. now rewrite !map_map.
  - intros [-> | ->]; reflexivity.
Qed.

End ComposeFacts.

(** C2. The text handed to the embedding model is a function of the
    service response alone, and for a response carrying a summary and
    optional string mappings it is the single-space join of the summary,
    then the keyword values, then the mood values, then the theme values,
    each mapping in its iteration order; an absent mapping (missing
    property, or null) contributes nothing and raises no error. *)
Theorem combinedText_is_compose (result : jsval) (md : metadata) :
  carries result md -> combinedText result = inr (compose md).
Proof.
  intros (props & -> & Hs & Hk & Hm & Ht).
  unfold combinedText; simpl.
  rewrite (values_or_empty _ _ Hk), (values_or_empty _ _ Hm), (values_or_empty _ _ Ht); simpl.
  rewrite Hs. unfold compose, join; simpl.
  rewrite <- !map_app, join_elem_strings.
  reflexivity.
Qed.

(** The example of the specification: [compose({summary: "s"})] is ["s"]. *)
Lemma combinedText_summary_only :
  combinedText (JObject [("summary"%string, JString "s")]) = inr "s"%string.
Proof.
  apply (@combinedText_is_compose
           (JObject [("summary"%string, JString "s")])
           {| md_summary := "s"; md_keywords := None; md_moods := None; md_themes := None |}).
  exists [("summary"%string, JString "s")].
  repeat split; simpl; auto.
Defined.

(* ================================================================== *)
(** * Ingestion: what a run stores *)

Ltac step_outcome :=
  match goal with
  | |- context [match ?o with inl _ => _ | inr _ => _ end] =>
      lazymatch o with
      | context [match _ with _ => _ end] => fail
      | _ => destruct o eqn:?
      end
  | |- context [match ?o with Some _ => _ | None => _ end] =>
      lazymatch o with
      | context [match _ with _ => _ end] => fail
      | _ => destruct o eqn:?
      end
  | |- context [let (_, _) := ?p in _] =>
      lazymatch p with
      | context [match _ with _ => _ end] => fail
      | _ => destruct p eqn:?
      end
  end.

Ltac run_js :=
  unfold fetchLyricsAndStore, try_catch_finally, songExists, ingestNew, findOne,
    find_toArray, insertOne, uploadToGridFS, getSongBuffer, connectToDatabase,
    closeConnection, tell, lift, bind, ret, throw; cbn.

Lemma ingestNew_run (e : env) (songUrl : string) (w : world) :
  ingestNew e songUrl w =
    match stages e songUrl with
    | inl err => (inl err, w)
    | inr (result, embedding, songBuffer, gridFSId) =>
        let fileName := basename songUrl in
        let w1 := {| songs := songs w;
                     songs_audio := songs_audio w
                       ++ [{| file_id := gridFSId; file_name := fileName;
                              file_data := songBuffer |}];
                     trace := trace w |} in
        match songData_of e songUrl result gridFSId fileName embedding with
        | inl err => (inl err, w1)
        | inr songData =>
            match insertOne_l121 e with
            | inl err => (inl err, w1)
            | inr id =>
                (inr tt,
                 emit (EvLog [AStr "Inserted song into DB with ID:"; AId id])
                   {| songs := songs w ++ [songData id];
                      songs_audio := songs_audio w1;
                      trace := trace w |})
            end
        end
    end.
Proof.
  unfold stages, obind. run_js.
  repeat (step_outcome; cbn; try reflexivity).
Qed.

Arguments ingestNew : simpl never.

Ltac run_ingest e songUrl w :=
  unfold fetchLyricsAndStore, try_catch_finally, songExists, findOne,
    connectToDatabase, closeConnection, tell, lift, bind, ret, inserted, stored;
  cbn;
  destruct (connect_l78 e) as [?|[]]; cbn;
  [|destruct (connect_l64 e) as [?|[]]; cbn;
    [|destruct (findOne_l66 e) as [?|[]]; cbn;
      [|destruct (find (fun d => String.eqb (Doc.songUrl d) songUrl) (songs w)); cbn;
        [|rewrite ingestNew_run;
          destruct (stages e songUrl) as [?|[[[? ?] ?] ?]]; cbn;
          [|destruct (songData_of e songUrl _ _ _ _) eqn:?; cbn;
            [|destruct (insertOne_l121 e); cbn]]]]]];
  destruct (closeConnection_l126 e) as [?|[]]; cbn.

(** The collection after a run: the collection before, plus the inserted
    document if there is one. *)
Lemma fetchLyricsAndStore_songs (e : env) (songUrl : string) (w : world) :
  songs (snd (fetchLyricsAndStore e songUrl w))
  = songs w ++ opt_list (inserted e songUrl w).
Proof.
  run_ingest e songUrl w; rewrite ?app_nil_r; reflexivity.
Qed.

(** The value a run settles with: a rejection only when the connection of
    line 78 cannot be acquired or the release of line 126 fails. *)
Lemma fetchLyricsAndStore_result (e : env) (songUrl : string) (w : world) :
  fst (fetchLyricsAndStore e songUrl w)
  = match connect_l78 e with
    | inl err => inl err
    | inr _ => match closeConnection_l126 e with
               | inl err => inl err
               | inr _ => inr tt
               end
    end.
Proof.
  run_ingest e songUrl w; reflexivity.
Qed.

(** Ingestion releases the connection once on every path that acquired it
    at line 78, and never otherwise. *)
Lemma fetchLyricsAndStore_closes (e : env) (songUrl : string) (w : world) :
  closes (trace (snd (fetchLyricsAndStore e songUrl w)))
  = closes (trace w) + (if is_ok (connect_l78 e) then 1 else 0).
Proof.
  run_ingest e songUrl w;
    unfold closes; rewrite ?filter_app, ?length_app; cbn; lia.
Qed.

Lemma inserted_Some (e : env) (songUrl : string) (w : world) (doc : Doc.song) :
  inserted e songUrl w = Some doc ->
  exists result embedding songBuffer gridFSId songData id,
    stored songUrl w = None
    /\ stages e songUrl = inr (result, embedding, songBuffer, gridFSId)
    /\ songData_of e songUrl result gridFSId (basename songUrl) embedding = inr songData
    /\ insertOne_l121 e = inr id
    /\ doc = songData id.
Proof.
  unfold inserted.
  destruct (connect_l78 e); [discriminate|].
  destruct (connect_l64 e); [discriminate|].
  destruct (findOne_l66 e); [discriminate|].
  destruct (stored songUrl w); [discriminate|].
  destruct (stages e songUrl) as [?|[[[result embedding] songBuffer] gridFSId]];
    [discriminate|].
  destruct (songData_of e songUrl result gridFSId (basename songUrl) embedding)
    as [?|songData] eqn:Hdata; [discriminate|].
  destruct (insertOne_l121 e) as [?|id]; [discriminate|].
  intros [= <-]. now exists result, embedding, songBuffer, gridFSId, songData, id.
Qed.

(** The fields of [songData] that do not depend on the service response. *)
Lemma songData_of_fields (e : env) (songUrl : string) (result : jsval)
  (gridFSId : ObjectId) (fileName : string) (embedding : list number)
  (songData : ObjectId -> Doc.song) (id : ObjectId) :
  songData_of e songUrl result gridFSId fileName embedding = inr songData ->
  Doc.songUrl (songData id) = songUrl
  /\ Doc.audioFileId (songData id) = gridFSId
  /\ Doc.embedding (songData id) = embedding
  /\ Doc._id (songData id) = id.
Proof.
  unfold songData_of, obind.
  repeat (step_outcome; try discriminate).
  intros [= <-]. cbn. auto.
Qed.

(** The uploaded file is in the bucket whenever a document was inserted. *)
Lemma inserted_blob (e : env) (songUrl : string) (w : world) (doc : Doc.song)
  (result : jsval) (embedding : list number) (songBuffer : Buffer) (gridFSId : ObjectId) :
  inserted e songUrl w = Some doc ->
  stages e songUrl = inr (result, embedding, songBuffer, gridFSId) ->
  In {| file_id := gridFSId; file_name := basename songUrl; file_data := songBuffer |}
     (songs_audio (snd (fetchLyricsAndStore e songUrl w))).
Proof.
  intros H Hst. revert H. run_ingest e songUrl w; try discriminate;
    intros _; inversion Hst; subst;
    apply in_or_app; right; left; reflexivity.
Qed.

(* ================================================================== *)
(** * Claims about ingestion *)

(** C5. Ingestion aborts on the first error and stores nothing then: when
    any of the stages before the insert (metadata fetch, parsing, text
    composition, embedding, payload fetch, blob upload) fails, the
    collection is as it was; and whenever the collection has changed, every
    stage succeeded, exactly one complete document was appended, and the
    blob it refers to is in the bucket. *)
Theorem ingest_aborts_on_first_error (e : env) (songUrl : string) (w : world) :
  let w' := snd (fetchLyricsAndStore e songUrl w) in
  (forall err, stages e songUrl = inl err -> songs w' = songs w)
  /\ (songs w' = songs w
      \/ exists result embedding songBuffer gridFSId doc,
           stages e songUrl = inr (result, embedding, songBuffer, gridFSId)
           /\ songs w' = songs w ++ [doc]
           /\ Doc.songUrl doc = songUrl
           /\ Doc.embedding doc = embedding
           /\ Doc.audioFileId doc = gridFSId
           /\ In {| file_id := gridFSId; file_name := basename songUrl;
                    file_data := songBuffer |} (songs_audio w')).
Proof.
  cbv zeta. rewrite fetchLyricsAndStore_songs.
  destruct (inserted e songUrl w) as [doc|] eqn:Hins; cbn [opt_list].
  - destruct (inserted_Some _ _ _ _ Hins)
      as (result & embedding & songBuffer & gridFSId & songData & id
          & Hnew & Hst & Hdata & Hid & ->).
    destruct (songData_of_fields _ _ _ _ _ _ _ id Hdata) as (Hu & Ha & He & _).
    split; [intros err Herr; congruence|].
    right. exists result, embedding, songBuffer, gridFSId, (songData id).
    repeat split; auto.
    exact (inserted_blob _ _ _ _ _ _ _ _ Hins Hst).
  - cbn. rewrite app_nil_r. split; auto.
Qed.




(** The record assembly of lines 112-114 applies [Object.values] to the
    three mappings as they are: when one of them is missing (or null) the
    assembly throws, and the run stores nothing. *)
Lemma songData_of_missing_mapping (e : env) (songUrl : string) (result : jsval)
  (gridFSId : ObjectId) (fileName : string) (embedding : list number) (name : string) :
  In name ["keywords"; "ddex moods"; "ddex themes"]%string ->
  get result name = inr JUndefined \/ get result name = inr JNull ->
  exists err, songData_of e songUrl result gridFSId fileName embedding = inl err.
Proof.
  intros Hname Hmissing.
  assert (Hval : exists err, values_of result name = inl err).
  { unfold values_of. destruct Hmissing as [-> | ->]; cbn; eauto. }
  destruct Hval as [err Herr].
  unfold songData_of, obind.
  destruct (get result "language"); [eauto|].
  destruct (get result "language-iso"); [eauto|].
  destruct (get result "summary"); [eauto|].
  destruct (get result "explicit"); [eauto|].
  destruct Hname as [<- | [<- | [<- | []]]].
  - rewrite Herr. eauto.
  - destruct (values_of result "keywords"); [eauto|]. rewrite Herr. eauto.
  - destruct (values_of result "keywords"); [eauto|].
    destruct (values_of result "ddex moods"); [eauto|]. rewrite Herr. eauto.
Qed.

Lemma missing_mapping_stores_nothing (e : env) (songUrl : string) (w : world)
  (result : jsval) (embedding : list number) (songBuffer : Buffer) (gridFSId : ObjectId)
  (name : string) :
  stages e songUrl = inr (result, embedding, songBuffer, gridFSId) ->
  In name ["keywords"; "ddex moods"; "ddex themes"]%string ->
  get result name = inr JUndefined \/ get result name = inr JNull ->
  songs (snd (fetchLyricsAndStore e songUrl w)) = songs w.
Proof.
  intros Hst Hname Hmissing.
  rewrite fetchLyricsAndStore_songs.
  destruct (inserted e songUrl w) as [doc|] eqn:Hins; [|apply app_nil_r].
  destruct (inserted_Some _ _ _ _ Hins)
    as (result' & embedding' & songBuffer' & gridFSId' & songData & id
        & _ & Hst' & Hdata & _ & _).
  rewrite Hst in Hst'. injection Hst' as <- <- <- <-.
  destruct (songData_of_missing_mapping e songUrl result gridFSId (basename songUrl)
              embedding name Hname Hmissing) as [err Herr].
  congruence.
Qed.

(** C8, at the failing input: the service answers a summary and no
    mapping.  The text is composed (line 91-93 guard the three mappings
    with [|| {}]), the blob is uploaded, and then [Object.values] of line
    112 throws on the missing [keywords]: the error is caught and no
    document is stored. *)
Theorem missing_mapping_aborts_ingestion :
  combinedText summary_only = inr "s"%string
  /\ fetchLyricsAndStore (answering summary_only [1; 0]%float 1%N) mayday empty_world
     = (inr tt,
        {| songs := [];
           songs_audio := [{| file_id := 101%N; file_name := "mayday.mp3";
                              file_data := [Byte.x49; Byte.x44; Byte.x33] |}];
           trace := [EvConnect true; EvConnect true;
                     EvError [AStr "Error in fetchLyricsAndStore:";
                              AExn (TypeError "Cannot convert undefined or null to object")];
                     EvClose true] |}).
Proof.
  split; vm_compute; reflexivity.
Qed.

(* ================================================================== *)
(** * Dedup Gate *)

Lemma stored_None_iff (songUrl : string) (w : world) :
  stored songUrl w = None <-> records_for songUrl (songs w) = 0.
Proof.
  unfold stored, records_for.
  induction (songs w) as [|d docs IH]; cbn; [tauto|].
  destruct (String.eqb (Doc.songUrl d) songUrl); cbn; [|exact IH].
  split; discriminate.
Qed.

Lemma records_for_app (songUrl : string) (l1 l2 : list Doc.song) :
  records_for songUrl (l1 ++ l2) = records_for songUrl l1 + records_for songUrl l2.
Proof. unfold records_for. now rewrite filter_app, length_app. Qed.

Lemma inserted_when_all_answer (e : env) (songUrl : string) (w : world) :
  all_answer e songUrl = true -> stored songUrl w = None ->
  exists doc, inserted e songUrl w = Some doc /\ Doc.songUrl doc = songUrl.
Proof.
  unfold all_answer, inserted. intros H ->.
  destruct (connect_l78 e); [discriminate|].
  destruct (connect_l64 e); [discriminate|].
  destruct (findOne_l66 e); [discriminate|].
  destruct (stages e songUrl) as [?|[[[result embedding] songBuffer] gridFSId]];
    [discriminate|].
  destruct (songData_of e songUrl result gridFSId (basename songUrl) embedding)
    as [?|songData] eqn:Hdata; [discriminate|].
  destruct (insertOne_l121 e) as [?|id]; [discriminate|].
  exists (songData id). split; [reflexivity|].
  apply (songData_of_fields _ _ _ _ _ _ _ id Hdata).
Qed.

(** A run on a collection that has a record for the key inserts nothing. *)
Lemma inserted_None_when_stored (e : env) (songUrl : string) (w : world) :
  stored songUrl w <> None -> inserted e songUrl w = None.
Proof.
  unfold inserted. intros H.
  destruct (connect_l78 e); [reflexivity|].
  destruct (connect_l64 e); [reflexivity|].
  destruct (findOne_l66 e); [reflexivity|].
  destruct (stored songUrl w); [reflexivity|congruence].
Qed.

(** C1. Dedup idempotence: for every source key not yet in the collection,
    a first ingestion that goes through followed by a second ingestion of
    the same key leaves exactly one record for that key; the second call
    changes nothing in the collection whatever the outside answers, and
    when the database answers it finds the record by the equality query,
    logs the skip, releases the connection and resolves normally. *)
Theorem ingest_twice_one_record (e1 e2 : env) (songUrl : string) (w : world) :
  records_for songUrl (songs w) = 0 ->
  all_answer e1 songUrl = true ->
  let w1 := snd (fetchLyricsAndStore e1 songUrl w) in
  let w2 := snd (fetchLyricsAndStore e2 songUrl w1) in
  records_for songUrl (songs w1) = 1
  /\ songs w2 = songs w1
  /\ records_for songUrl (songs w2) = 1
  /\ List.length (songs w2) = List.length (songs w1)
  /\ (connect_l78 e2 = inr tt -> connect_l64 e2 = inr tt ->
      findOne_l66 e2 = inr tt -> closeConnection_l126 e2 = inr tt ->
      fetchLyricsAndStore e2 songUrl w1
      = (inr tt,
         {| songs := songs w1;
            songs_audio := songs_audio w1;
            trace := trace w1 ++ [EvConnect true; EvConnect true;
                                  EvLog [AStr "Song already exists in the database."];
                                  EvClose true] |})).
Proof.
  intros Hnew Hok. cbv zeta.
  apply stored_None_iff in Hnew.
  destruct (inserted_when_all_answer _ _ _ Hok Hnew) as (doc & Hins & Hurl).
  assert (H1 : songs (snd (fetchLyricsAndStore e1 songUrl w)) = songs w ++ [doc])
    by (now rewrite fetchLyricsAndStore_songs, Hins).
  assert (Hone : records_for songUrl (songs (snd (fetchLyricsAndStore e1 songUrl w))) = 1).
  { rewrite H1, records_for_app.
    apply stored_None_iff in Hnew. rewrite Hnew.
    unfold records_for; cbn. rewrite Hurl, String.eqb_refl. reflexivity. }
  set (w1 := snd (fetchLyricsAndStore e1 songUrl w)) in *.
  assert (Hst : stored songUrl w1 <> None).
  { intros Hc. apply stored_None_iff in Hc. lia. }
  assert (H2 : songs (snd (fetchLyricsAndStore e2 songUrl w1)) = songs w1).
  { rewrite fetchLyricsAndStore_songs, (inserted_None_when_stored _ _ _ Hst).
    apply app_nil_r. }
  rewrite H2. repeat split; auto.
  intros Hc1 Hc2 Hf Hcl.
  unfold stored in Hst.
  unfold fetchLyricsAndStore, try_catch_finally, songExists, findOne,
    connectToDatabase, closeConnection, tell, lift, bind, ret.
  rewrite Hc1, Hc2, Hf, Hcl. cbn.
  destruct (find (fun d => String.eqb (Doc.songUrl d) songUrl) (songs w1));
    [|congruence].
  unfold emit; cbn. rewrite <- !app_assoc. reflexivity.
Qed.

Lemma ingest_twice_one_record_sample :
  let e := answering full_result [1; 0]%float 1%N in
  let w1 := snd (fetchLyricsAndStore e mayday empty_world) in
  let w2 := snd (fetchLyricsAndStore e mayday w1) in
  records_for mayday (songs w1) = 1
  /\ songs w2 = songs w1
  /\ records_for mayday (songs w2) = 1
  /\ List.length (songs w2) = List.length (songs w1)
  /\ (connect_l78 e = inr tt -> connect_l64 e = inr tt ->
      findOne_l66 e = inr tt -> closeConnection_l126 e = inr tt ->
      fetchLyricsAndStore e mayday w1
      = (inr tt,
         {| songs := songs w1;
            songs_audio := songs_audio w1;
            trace := trace w1 ++ [EvConnect true; EvConnect true;
                                  EvLog [AStr "Song already exists in the database."];
                                  EvClose true] |})).
Proof.
  apply (ingest_twice_one_record
           (answering full_result [1; 0]%float 1%N)
           (answering full_result [1; 0]%float 1%N) mayday empty_world).
  - reflexivity.
  - vm_compute. reflexivity.
Defined.

(* ================================================================== *)
(** * How ingestion settles *)

(** C10, as stated, fails: the connection is acquired at line 78, before
    the [try]; when that call rejects, nothing catches or logs the error
    and [fetchLyricsAndStore] rejects with it. *)
Lemma ingest_rejects_when_unreachable :
  fetchLyricsAndStore (unreachable full_result [1; 0]%float 1%N) mayday empty_world
  = (inl (Rejected "MongoNetworkError"),
     {| songs := []; songs_audio := []; trace := [EvConnect false] |})
  /\ ~ (forall e songUrl w, fst (fetchLyricsAndStore e songUrl w) = inr tt).
Proof.
  assert (H : fetchLyricsAndStore (unreachable full_result [1; 0]%float 1%N)
                mayday empty_world
              = (inl (Rejected "MongoNetworkError"),
                 {| songs := []; songs_audio := []; trace := [EvConnect false] |}))
    by (vm_compute; reflexivity).
  split; [exact H|].
  intros Hall.
  specialize (Hall (unreachable full_result [1; 0]%float 1%N) mayday empty_world).
  rewrite H in Hall. discriminate.
Qed.

(** C10, amended. Once the connection of line 78 is acquired, and provided
    the release in [finally] does not itself reject, the entry point never
    rejects: whatever fails inside the [try] (the existence query, the
    service, the embedding, the transfer, the blob store, the insert) is
    caught and printed by [console.error], and the call resolves with
    [undefined], the same value as after a success or a duplicate skip. *)
Theorem ingest_resolves_undefined (e : env) (songUrl : string) (w : world) :
  connect_l78 e = inr tt ->
  closeConnection_l126 e = inr tt ->
  fst (fetchLyricsAndStore e songUrl w) = inr tt
  /\ (exists new,
        trace (snd (fetchLyricsAndStore e songUrl w))
        = trace w ++ EvConnect true :: new ++ [EvClose true]
        /\ reports new
        /\ (inserted e songUrl w = None -> stored songUrl w = None ->
            exists err, In (EvError [AStr "Error in fetchLyricsAndStore:"; AExn err]) new)).
Proof.
  intros Hc Hcl. split.
  - now rewrite fetchLyricsAndStore_result, Hc, Hcl.
  - revert Hc Hcl. unfold reports.
    run_ingest e songUrl w; intros Hc Hcl; try discriminate; unfold emit; cbn;
      rewrite <- ?app_assoc; cbn;
      match goal with
      | |- exists new, _ ++ _ :: ?rest = _ /\ _ => exists (removelast rest)
      end; cbn;
      (split; [reflexivity|]);
      (split; [eauto 8|]); intros; try discriminate; eauto 8.
Qed.

Lemma ingest_resolves_undefined_sample :
  let e := answering summary_only [1; 0]%float 1%N in
  fst (fetchLyricsAndStore e mayday empty_world) = inr tt
  /\ (exists new,
        trace (snd (fetchLyricsAndStore e mayday empty_world))
        = trace empty_world ++ EvConnect true :: new ++ [EvClose true]
        /\ reports new
        /\ (inserted e mayday empty_world = None -> stored mayday empty_world = None ->
            exists err, In (EvError [AStr "Error in fetchLyricsAndStore:"; AExn err]) new)).
Proof.
  apply (ingest_resolves_undefined
           (answering summary_only [1; 0]%float 1%N) mayday empty_world);
    reflexivity.
Defined.

(* ================================================================== *)
(** * Release of the storage connection *)

(** The search has no [finally]: when the corpus query of line 138 rejects
    after the connection was acquired, the call rejects with one more
    acquisition in the trace and no release. *)
Lemma findSimilarSongs_scan_rejects (e : env) (queryText : string) (w : world)
  (queryEmbedding : list number) (err : exn) :
  embedContent e queryText = inr queryEmbedding ->
  connect_l135 e = inr tt -> find_l138 e = inl err ->
  findSimilarSongs e queryText w = (inl err, emit (EvConnect true) w).
Proof.
  intros He Hc Hf.
  unfold findSimilarSongs, find_toArray, connectToDatabase, bind, lift.
  now rewrite He, Hc, Hf.
Qed.

(** C9, at the failing input: the search acquires the connection (line
    135), the corpus query of line 138 rejects, and [findSimilarSongs]
    rejects without ever reaching [closeConnection] (line 152): one
    acquisition, no release.  Ingestion, with its [finally], releases once
    on every path ([fetchLyricsAndStore_closes]). *)
Theorem search_leaks_connection_on_error :
  findSimilarSongs (scan_fails [1; 0]%float) "sea" scenario_world
  = (inl (Rejected "MongoServerError"),
     {| songs := scenario_corpus; songs_audio := []; trace := [EvConnect true] |})
  /\ acquisitions (trace (snd (findSimilarSongs (scan_fails [1; 0]%float) "sea"
                                 scenario_world))) = 1
  /\ closes (trace (snd (findSimilarSongs (scan_fails [1; 0]%float) "sea"
                           scenario_world))) = 0.
Proof.
  repeat split; vm_compute; reflexivity.
Qed.

(* ================================================================== *)
(** * IEEE-754 facts: zeros and NaN *)

Module FloatFacts.

#[local] Open Scope float_scope.

Lemma SFcompare_refl (x : spec_float) :
  x <> S754_nan -> SFcompare x x = Some Eq.
Proof.
  destruct x as [s|s| |s m e]; cbn; try congruence; intros _.
  - now destruct s.
  - rewrite Z.compare_refl, Pos.compare_cont_refl. now destruct s.
Qed.

Lemma is_nan_spec (x : float) : is_nan x = true <-> FNaN x.
Proof.
  unfold is_nan, FNaN. rewrite eqb_spec. unfold SFeqb.
  destruct (Prim2SF x) as [s|s| |s m e] eqn:E.
  1,2,4: rewrite SFcompare_refl by discriminate; cbn; split; discriminate.
  cbn. tauto.
Qed.

Lemma is_zero_spec (x : float) : is_zero x = true <-> FZero x.
Proof.
  unfold is_zero, FZero. rewrite eqb_spec.
  change (Prim2SF zero) with (S754_zero false). unfold SFeqb.
  destruct (Prim2SF x) as [s|s| |s m e]; cbn.
  - split; eauto.
  - destruct s; split; try discriminate; intros [? ?]; discriminate.
  - split; try discriminate; intros [? ?]; discriminate.
  - destruct s; split; try discriminate; intros [? ?]; discriminate.
Qed.

Lemma mul_ZeroOrNaN_l (x y : float) : ZeroOrNaN x -> ZeroOrNaN (x * y).
Proof.
  unfold ZeroOrNaN, FZero, FNaN. rewrite mul_spec. unfold SF64mul.
  intros [[s ->] | ->]; destruct (Prim2SF y); cbn; eauto.
Qed.

Lemma mul_ZeroOrNaN_r (x y : float) : ZeroOrNaN y -> ZeroOrNaN (x * y).
Proof.
  unfold ZeroOrNaN, FZero, FNaN. rewrite mul_spec. unfold SF64mul.
  intros [[s ->] | ->]; destruct (Prim2SF x); cbn; eauto.
Qed.

Lemma add_ZeroOrNaN (x y : float) : ZeroOrNaN x -> ZeroOrNaN y -> ZeroOrNaN (x + y).
Proof.
  unfold ZeroOrNaN, FZero, FNaN. rewrite add_spec. unfold SF64add.
  intros [[s ->] | ->] [[t ->] | ->]; cbn; eauto.
  destruct s, t; eauto.
Qed.

Lemma add_NaN_l (x y : float) : FNaN x -> FNaN (x + y).
Proof. unfold FNaN. rewrite add_spec. now intros ->. Qed.

Lemma add_NaN_r (x y : float) : FNaN y -> FNaN (x + y).
Proof. unfold FNaN. rewrite add_spec. intros ->. now destruct (Prim2SF x). Qed.

Lemma mul_NaN_r (x y : float) : FNaN y -> FNaN (x * y).
Proof. unfold FNaN. rewrite mul_spec. intros ->. now destruct (Prim2SF x). Qed.


Lemma div_ZeroOrNaN (x y : float) : ZeroOrNaN x -> ZeroOrNaN y -> FNaN (x / y).
Proof.
  unfold ZeroOrNaN, FZero, FNaN. rewrite div_spec. unfold SF64div.
  intros [[s ->] | ->] [[t ->] | ->]; reflexivity.
Qed.

(** Dividing by zero or [NaN] never gives a finite number. *)
Lemma div_by_ZeroOrNaN (x y : float) :
  ZeroOrNaN y -> is_nan (x / y) = true \/ is_infinity (x / y) = true.
Proof.
  unfold ZeroOrNaN, FZero. intros Hy.
  rewrite is_nan_spec. unfold FNaN, is_infinity.
  rewrite eqb_spec, abs_spec, div_spec. unfold SF64div.
  destruct Hy as [[t ->] | ->]; destruct (Prim2SF x); cbn; auto.
Qed.

End FloatFacts.

(* ================================================================== *)
(** * IEEE-754 facts: the order of binary64 numbers *)

Module FloatOrder.

#[local] Open Scope Z_scope.

Lemma digits2_pos_bounds (m : positive) :
  2 ^ (Zpos (digits2_pos m) - 1) <= Zpos m < 2 ^ Zpos (digits2_pos m).
Proof.
  induction m as [m IH|m IH|]; cbn [digits2_pos].
  - rewrite Pos2Z.inj_succ.
    replace (Z.succ (Zpos (digits2_pos m)) - 1) with (Z.succ (Zpos (digits2_pos m) - 1)) by lia.
    rewrite !Z.pow_succ_r by lia. lia.
  - rewrite Pos2Z.inj_succ.
    replace (Z.succ (Zpos (digits2_pos m)) - 1) with (Z.succ (Zpos (digits2_pos m) - 1)) by lia.
    rewrite !Z.pow_succ_r by lia. lia.
  - cbn. lia.
Qed.

(** What validity says of a finite number. *)
Lemma bounded_inv (m : positive) (e : Z) :
  bounded prec emax m e = true ->
  emin <= e <= emax - prec
  /\ Zpos (digits2_pos m) <= prec
  /\ (emin < e -> Zpos (digits2_pos m) = prec).
Proof.
  unfold bounded, canonical_mantissa, SpecFloat.fexp.
  intros H. apply andb_prop in H. destruct H as [H1 H2].
  apply Z.eqb_eq in H1. apply Z.leb_le in H2.
  unfold SpecFloat.emin, prec, emax in *. lia.
Qed.

Lemma finite_below_top (m : positive) (e : Z) :
  bounded prec emax m e = true -> 0 < Zpos m * 2 ^ (e - emin) < top.
Proof.
  intros H. destruct (bounded_inv _ _ H) as ((He1 & He2) & Hd & _).
  pose proof (digits2_pos_bounds m) as [_ Hm].
  assert (Hp : 0 < 2 ^ (e - emin)) by (apply Z.pow_pos_nonneg; lia).
  split; [lia|].
  assert (Zpos m < 2 ^ prec).
  { eapply Z.lt_le_trans; [exact Hm|]. apply Z.pow_le_mono_r; lia. }
  unfold top.
  replace (emax - emin) with (prec + (emax - prec - emin)) by lia.
  rewrite Z.pow_add_r by (unfold prec, emax, SpecFloat.emin in *; lia).
  assert (2 ^ (e - emin) <= 2 ^ (emax - prec - emin)) by (apply Z.pow_le_mono_r; lia).
  nia.
Qed.

(** Two valid finite numbers with different exponents are ordered by the
    exponent. *)
Lemma finite_exponent_order (m1 m2 : positive) (e1 e2 : Z) :
  bounded prec emax m1 e1 = true -> bounded prec emax m2 e2 = true ->
  e1 < e2 ->
  Zpos m1 * 2 ^ (e1 - emin) < Zpos m2 * 2 ^ (e2 - emin).
Proof.
  intros H1 H2 Hlt.
  destruct (bounded_inv _ _ H1) as ((Ha & _) & Hd1 & _).
  destruct (bounded_inv _ _ H2) as (_ & _ & Hd2).
  specialize (Hd2 ltac:(lia)).
  pose proof (digits2_pos_bounds m1) as [_ Hm1].
  pose proof (digits2_pos_bounds m2) as [Hm2 _].
  rewrite Hd2 in Hm2.
  assert (Hm1' : Zpos m1 < 2 ^ prec).
  { eapply Z.lt_le_trans; [exact Hm1|]. apply Z.pow_le_mono_r; lia. }
  assert (Hp : 0 < 2 ^ (e1 - emin)) by (apply Z.pow_pos_nonneg; lia).
  assert (Hq : 2 * 2 ^ (e1 - emin) <= 2 ^ (e2 - emin)).
  { rewrite <- Z.pow_succ_r by lia. apply Z.pow_le_mono_r; lia. }
  assert (Hr : 2 ^ prec = 2 * 2 ^ (prec - 1)).
  { reflexivity. }
  nia.
Qed.

Lemma top_pos : 0 < top.
Proof. unfold top. apply Z.pow_pos_nonneg; unfold emax, SpecFloat.emin, prec; lia. Qed.

#[local] Opaque top.

Ltac cmp_solve :=
  symmetry;
  first [ apply Z.compare_eq_iff; lia
        | apply Z.compare_lt_iff; lia
        | apply Z.compare_gt_iff; lia ].

(** On valid numbers that are not [NaN], [SFcompare] is the order of the
    scale. *)
Lemma SFcompare_scale (x y : spec_float) :
  valid_binary x = true -> valid_binary y = true ->
  x <> S754_nan -> y <> S754_nan ->
  SFcompare x y = Some (scale x ?= scale y).
Proof.
  intros Vx Vy Nx Ny.
  pose proof top_pos as Ht.
  destruct x as [sx|sx| |sx mx ex]; try congruence;
  destruct y as [sy|sy| |sy my ey]; try congruence;
    cbn [valid_binary] in Vx, Vy; cbn [SFcompare scale];
    try pose proof (finite_below_top _ _ Vx) as Bx;
    try pose proof (finite_below_top _ _ Vy) as By.
  1-8: try destruct sx; try destruct sy; cbn [cond_Zopp]; f_equal; cmp_solve.
  - destruct (bounded_inv _ _ Vx) as ((Hx & _) & _).
    destruct (bounded_inv _ _ Vy) as ((Hy & _) & _).
    assert (Hp : 0 < 2 ^ (ex - emin)) by (apply Z.pow_pos_nonneg; lia).
    assert (Hq : 0 < 2 ^ (ey - emin)) by (apply Z.pow_pos_nonneg; lia).
    f_equal.
    change (Pos.compare_cont Eq mx my) with (Pos.compare mx my).
    destruct sx, sy; cbn [cond_Zopp]; try cmp_solve.
    + destruct (Z.compare_spec ex ey) as [->|Hlt|Hgt].
      * destruct (Pos.compare_spec mx my) as [->|H|H]; cbn [CompOpp]; symmetry;
          [apply Z.compare_eq_iff | apply Z.compare_gt_iff | apply Z.compare_lt_iff];
          try reflexivity; clear Bx By; generalize dependent (2 ^ (ey - emin)); intros; nia.
      * pose proof (finite_exponent_order _ _ _ _ Vx Vy Hlt). cmp_solve.
      * pose proof (finite_exponent_order _ _ _ _ Vy Vx Hgt). cmp_solve.
    + destruct (Z.compare_spec ex ey) as [->|Hlt|Hgt].
      * destruct (Pos.compare_spec mx my) as [->|H|H]; symmetry;
          [apply Z.compare_eq_iff | apply Z.compare_lt_iff | apply Z.compare_gt_iff];
          try reflexivity; clear Bx By; generalize dependent (2 ^ (ey - emin)); intros; nia.
      * pose proof (finite_exponent_order _ _ _ _ Vx Vy Hlt). cmp_solve.
      * pose proof (finite_exponent_order _ _ _ _ Vy Vx Hgt). cmp_solve.
Qed.

(** ** Rounding a nonzero integer at an exponent not below [emin] never
    gives zero *)

Lemma shr_1_m (mrs : shr_record) :
  0 <= shr_m mrs -> shr_m (shr_1 mrs) = shr_m mrs / 2.
Proof.
  destruct mrs as [m r s]; cbn [shr_m]. intros Hm.
  destruct m as [|p|p]; [reflexivity| |lia].
  destruct p as [p|p|]; cbn [shr_1 shr_m].
  - rewrite Pos2Z.inj_xI. apply Z.div_unique with (r := 1); lia.
  - rewrite Pos2Z.inj_xO. apply Z.div_unique with (r := 0); lia.
  - reflexivity.
Qed.

Lemma iter_shr_1_m (p : positive) (mrs : shr_record) :
  0 <= shr_m mrs ->
  shr_m (iter_pos shr_1 p mrs) = shr_m mrs / 2 ^ Zpos p.
Proof.
  revert mrs. induction p as [p IH|p IH|]; intros mrs Hm; cbn [iter_pos].
  - assert (H1 : 0 <= shr_m (shr_1 mrs)).
    { rewrite shr_1_m by assumption. apply Z.div_pos; lia. }
    assert (H2 : 0 <= shr_m (iter_pos shr_1 p (shr_1 mrs))).
    { rewrite IH by assumption. apply Z.div_pos; [lia|]. apply Z.pow_pos_nonneg; lia. }
    rewrite IH, IH, shr_1_m by assumption.
    rewrite !Z.div_div by (try apply Z.pow_pos_nonneg; lia).
    f_equal.
    replace (Zpos p~1) with (1 + Zpos p + Zpos p) by lia.
    rewrite !Z.pow_add_r by lia. rewrite Z.pow_1_r. lia.
  - assert (H2 : 0 <= shr_m (iter_pos shr_1 p mrs)).
    { rewrite IH by assumption. apply Z.div_pos; [lia|]. apply Z.pow_pos_nonneg; lia. }
    rewrite IH, IH by assumption.
    rewrite !Z.div_div by (try apply Z.pow_pos_nonneg; lia).
    f_equal.
    replace (Zpos p~0) with (Zpos p + Zpos p) by lia.
    rewrite !Z.pow_add_r by lia. reflexivity.
  - rewrite shr_1_m by assumption. reflexivity.
Qed.

Lemma shr_record_of_loc_m (m : Z) (l : location) : shr_m (shr_record_of_loc m l) = m.
Proof. destruct l as [|[]]; reflexivity. Qed.

Lemma Zdigits2_bounds (m : Z) :
  0 < m -> 2 ^ (Zdigits2 m - 1) <= m < 2 ^ Zdigits2 m.
Proof.
  destruct m as [|p|p]; try lia. intros _. apply digits2_pos_bounds.
Qed.

(** Shifting a positive mantissa to its canonical exponent keeps it
    positive when the exponent starts at [emin] or above. *)
Lemma shr_fexp_pos (m e : Z) (l : location) :
  0 < m -> emin <= e ->
  0 < shr_m (fst (shr_fexp prec emax m e l))
  /\ emin <= snd (shr_fexp prec emax m e l).
Proof.
  intros Hm He. unfold shr_fexp, shr.
  pose proof (Zdigits2_bounds m Hm) as [Hlo Hhi].
  assert (Hd : 0 < Zdigits2 m).
  { destruct m; try lia. cbn. lia. }
  destruct (fexp (Zdigits2 m + e) - e) as [|p|p] eqn:Hn; cbn [fst snd];
    rewrite ?shr_record_of_loc_m; try (split; lia).
  rewrite iter_shr_1_m by (rewrite shr_record_of_loc_m; lia).
  rewrite shr_record_of_loc_m.
  unfold SpecFloat.fexp in Hn.
  assert (Hp : Zpos p = Zdigits2 m - prec).
  { unfold SpecFloat.emin, prec, emax in *. lia. }
  split; [|lia].
  apply Z.div_str_pos. split; [apply Z.pow_pos_nonneg; lia|].
  eapply Z.le_trans; [|exact Hlo].
  apply Z.pow_le_mono_r; [lia|]. rewrite Hp. unfold prec. lia.
Qed.

Lemma round_nearest_even_pos (m : Z) (l : location) :
  0 < m -> 0 < round_nearest_even m l.
Proof.
  intros Hm. unfold round_nearest_even.
  destruct l as [|[]]; try lia. destruct (Z.even m); lia.
Qed.

Lemma binary_round_aux_shape (s : bool) (m e : Z) (l : location) :
  0 < m -> emin <= e ->
  signed_nonzero s (binary_round_aux prec emax s m e l).
Proof.
  intros Hm He. unfold binary_round_aux.
  pose proof (shr_fexp_pos m e l Hm He) as [H1 H2].
  destruct (shr_fexp prec emax m e l) as [mrs' e']. cbn [fst snd] in H1, H2.
  pose proof (round_nearest_even_pos _ (loc_of_shr_record mrs') H1) as H3.
  pose proof (shr_fexp_pos _ e' loc_Exact H3 H2) as [H4 _].
  destruct (shr_fexp prec emax _ e' loc_Exact) as [mrs'' e'']. cbn [fst] in H4.
  destruct (shr_m mrs'') as [|q|q]; try lia.
  destruct (e'' <=? emax - prec); [right; eauto | left; reflexivity].
Qed.

Lemma binary_round_shape (s : bool) (m : positive) (e : Z) :
  emin <= e -> signed_nonzero s (binary_round prec emax s m e).
Proof.
  intros He. unfold binary_round.
  destruct (shl_align m e (fexp (Zpos (digits2_pos m) + e))) as [mz ez] eqn:Hal.
  apply binary_round_aux_shape; [lia|].
  unfold shl_align in Hal.
  assert (Hf : emin <= fexp (Zpos (digits2_pos m) + e)) by (unfold SpecFloat.fexp; lia).
  destruct (fexp (Zpos (digits2_pos m) + e) - e) eqn:Hd; injection Hal as <- <-;
    first [exact He | exact Hf].
Qed.

Lemma shl_align_value (m : positive) (e e' : Z) :
  e' <= e -> Zpos (fst (shl_align m e e')) = Zpos m * 2 ^ (e - e').
Proof.
  intros Hle. unfold shl_align.
  destruct (e' - e) as [|d|d] eqn:Hd; cbn [fst]; try lia.
  - replace (e - e') with 0 by lia. lia.
  - replace (e - e') with (Zpos d) by lia.
    clear. induction d as [|d IH] using Pos.peano_ind.
    + cbn. lia.
    + rewrite Pos.iter_succ, Pos2Z.inj_xO, IH, Pos2Z.inj_succ, Z.pow_succ_r by lia. lia.
Qed.

Lemma positive_signed_nonzero (s : bool) (r : spec_float) :
  signed_nonzero s r -> SFltb (S754_zero false) r = negb s.
Proof.
  intros [-> | (m & e & ->)]; destruct s; reflexivity.
Qed.

Lemma scale_finite (s : bool) (m : positive) (e ez : Z) :
  emin <= ez -> ez <= e ->
  cond_Zopp s (Zpos m * 2 ^ (e - emin))
  = cond_Zopp s (Zpos (fst (shl_align m e ez))) * 2 ^ (ez - emin).
Proof.
  intros H1 H2. rewrite shl_align_value by assumption.
  replace (e - emin) with ((e - ez) + (ez - emin)) by lia.
  rewrite Z.pow_add_r by lia.
  destruct s; cbn [cond_Zopp]; lia.
Qed.

(** On valid numbers that are not [NaN], the difference [x - y] is
    positive exactly when [y] is below [x] on the scale. *)
Lemma SFsub_positive (x y : spec_float) :
  valid_binary x = true -> valid_binary y = true ->
  x <> S754_nan -> y <> S754_nan ->
  SFltb (S754_zero false) (SF64sub x y) = (scale y <? scale x).
Proof.
  intros Vx Vy Nx Ny.
  pose proof top_pos as Ht.
  destruct x as [sx|sx| |sx mx ex]; try congruence;
  destruct y as [sy|sy| |sy my ey]; try congruence;
    cbn [valid_binary] in Vx, Vy; cbn [scale];
    try pose proof (finite_below_top _ _ Vx) as Bx;
    try pose proof (finite_below_top _ _ Vy) as By.
  1-8: try destruct sx; try destruct sy;
       unfold SF64sub, SFsub, SFltb, SFcompare; cbv beta iota; cbn [negb cond_Zopp];
       symmetry; first [apply Z.ltb_lt; lia | apply Z.ltb_ge; lia].
  destruct (bounded_inv _ _ Vx) as ((Hx & _) & _).
  destruct (bounded_inv _ _ Vy) as ((Hy & _) & _).
  unfold SF64sub, SFsub.
  set (ez := Z.min ex ey).
  assert (Hez : emin <= ez) by (unfold ez; lia).
  rewrite (scale_finite sx mx ex ez), (scale_finite sy my ey ez) by (unfold ez; lia).
  assert (Hp : 0 < 2 ^ (ez - emin)) by (apply Z.pow_pos_nonneg; lia).
  set (X := cond_Zopp sx (Zpos (fst (shl_align mx ex ez)))).
  set (Y := cond_Zopp sy (Zpos (fst (shl_align my ey ez)))).
  unfold binary_normalize.
  destruct (X - Y) as [|p|p] eqn:HM.
  - cbn. symmetry. apply Z.ltb_ge. nia.
  - rewrite (positive_signed_nonzero false) by (apply binary_round_shape; exact Hez).
    symmetry. apply Z.ltb_lt. nia.
  - rewrite (positive_signed_nonzero true) by (apply binary_round_shape; exact Hez).
    symmetry. apply Z.ltb_ge. nia.
Qed.

Lemma negative_signed_nonzero (s : bool) (r : spec_float) :
  signed_nonzero s r -> SFltb r (S754_zero false) = s.
Proof.
  intros [-> | (m & e & ->)]; destruct s; reflexivity.
Qed.

(** On valid numbers that are not [NaN], the difference [x - y] is
    negative exactly when [x] is below [y] on the scale. *)
Lemma SFsub_negative (x y : spec_float) :
  valid_binary x = true -> valid_binary y = true ->
  x <> S754_nan -> y <> S754_nan ->
  SFltb (SF64sub x y) (S754_zero false) = (scale x <? scale y).
Proof.
  intros Vx Vy Nx Ny.
  pose proof top_pos as Ht.
  destruct x as [sx|sx| |sx mx ex]; try congruence;
  destruct y as [sy|sy| |sy my ey]; try congruence;
    cbn [valid_binary] in Vx, Vy; cbn [scale];
    try pose proof (finite_below_top _ _ Vx) as Bx;
    try pose proof (finite_below_top _ _ Vy) as By.
  1-8: try destruct sx; try destruct sy;
       unfold SF64sub, SFsub, SFltb, SFcompare; cbv beta iota; cbn [negb cond_Zopp];
       symmetry; first [apply Z.ltb_lt; lia | apply Z.ltb_ge; lia].
  destruct (bounded_inv _ _ Vx) as ((Hx & _) & _).
  destruct (bounded_inv _ _ Vy) as ((Hy & _) & _).
  unfold SF64sub, SFsub.
  set (ez := Z.min ex ey).
  assert (Hez : emin <= ez) by (unfold ez; lia).
  rewrite (scale_finite sx mx ex ez), (scale_finite sy my ey ez) by (unfold ez; lia).
  assert (Hp : 0 < 2 ^ (ez - emin)) by (apply Z.pow_pos_nonneg; lia).
  set (X := cond_Zopp sx (Zpos (fst (shl_align mx ex ez)))).
  set (Y := cond_Zopp sy (Zpos (fst (shl_align my ey ez)))).
  unfold binary_normalize.
  destruct (X - Y) as [|p|p] eqn:HM.
  - cbn. symmetry. apply Z.ltb_ge. nia.
  - rewrite (negative_signed_nonzero false) by (apply binary_round_shape; exact Hez).
    symmetry. apply Z.ltb_ge. nia.
  - rewrite (negative_signed_nonzero true) by (apply binary_round_shape; exact Hez).
    symmetry. apply Z.ltb_lt. nia.
Qed.

(** The difference of two such numbers is never [NaN]. *)
Lemma SFsub_number (x y : spec_float) :
  valid_binary x = true -> valid_binary y = true ->
  bounded_number x -> bounded_number y ->
  SF64sub x y <> S754_nan.
Proof.
  intros Vx Vy Bx By.
  destruct x as [sx|sx| |sx mx ex]; try contradiction;
  destruct y as [sy|sy| |sy my ey]; try contradiction;
    cbn [valid_binary] in Vx, Vy; unfold SF64sub, SFsub; cbv beta iota;
    try (destruct sx, sy; discriminate); try discriminate.
  destruct (bounded_inv _ _ Vx) as ((Hx & _) & _).
  destruct (bounded_inv _ _ Vy) as ((Hy & _) & _).
  set (ez := Z.min ex ey).
  assert (Hez : emin <= ez) by (unfold ez; lia).
  unfold binary_normalize.
  destruct (_ - _) as [|p|p]; [discriminate| |].
  - destruct (binary_round_shape false p ez Hez) as [-> | (m & e & ->)]; discriminate.
  - destruct (binary_round_shape true p ez Hez) as [-> | (m & e & ->)]; discriminate.
Qed.

(** A number that is not [NaN] is zero exactly when it is neither below
    nor above zero. *)
Lemma SFeqb_zero (r : spec_float) :
  r <> S754_nan ->
  SFeqb r (S754_zero false)
  = negb (SFltb r (S754_zero false)) && negb (SFltb (S754_zero false) r).
Proof.
  intros Hr. destruct r as [s|s| |s m e]; try congruence; destruct s; reflexivity.
Qed.

End FloatOrder.

(* ================================================================== *)
(** * Cosine similarity: vectors of zero magnitude, vectors of unequal length *)

Import FloatFacts.

Lemma cosineSimilarity_eq (vecA vecB : list number) :
  cosineSimilarity vecA vecB = (dot vecA vecB / (magnitude vecA * magnitude vecB))%float.
Proof. reflexivity. Qed.

Lemma reduce_from_invariant {A B} (P : B -> Prop) (f : B -> A -> nat -> B)
  (arr : list A) :
  (forall acc val i, In val arr -> P acc -> P (f acc val i)) ->
  forall i acc, P acc -> P (reduce_from f arr i acc).
Proof.
  induction arr as [|val rest IH]; intros Hstep i acc Hacc; cbn; [exact Hacc|].
  apply IH.
  - intros acc' val' i' Hin. apply Hstep. now right.
  - apply Hstep; [now left | exact Hacc].
Qed.

Lemma ZeroOrNaN_zero : ZeroOrNaN 0%float.
Proof. left. now exists false. Qed.

Lemma all_zero_In (vec : list number) (val : number) :
  forallb is_zero vec = true -> In val vec -> FZero val.
Proof.
  intros H Hin. apply is_zero_spec.
  rewrite forallb_forall in H. now apply H.
Qed.

Lemma at_index_zero_vector (vec : list number) (i : nat) :
  forallb is_zero vec = true -> ZeroOrNaN (at_index vec i).
Proof.
  intros H. unfold at_index.
  destruct (nth_in_or_default i vec nan) as [Hin | ->].
  - left. now apply (all_zero_In vec).
  - right. reflexivity.
Qed.

(** The sum of squares of a vector of zeros is zero. *)
Lemma magnitude_zero_vector (vec : list number) :
  forallb is_zero vec = true -> is_zero (magnitude vec) = true.
Proof.
  intros H. apply is_zero_spec. unfold magnitude, reduce.
  assert (Hsum : FZero (reduce_from (fun sum val (_ : nat) => sum + val * val)%float
                          vec 0 0%float)).
  { apply reduce_from_invariant; [|now exists false].
    intros acc val _ Hin [s Hs].
    destruct (all_zero_In vec val H Hin) as [t Ht].
    unfold FZero. rewrite add_spec, mul_spec, Hs, Ht. cbn.
    destruct s, t; cbn; eauto. }
  destruct Hsum as [s Hs]. unfold FZero. rewrite sqrt_spec, Hs. cbn. eauto.
Qed.

Lemma dot_zero_vector_l (vecA vecB : list number) :
  forallb is_zero vecA = true -> ZeroOrNaN (dot vecA vecB).
Proof.
  intros H. unfold dot, reduce.
  apply reduce_from_invariant; [|exact ZeroOrNaN_zero].
  intros acc val i Hin Hacc.
  apply add_ZeroOrNaN; [exact Hacc|].
  apply mul_ZeroOrNaN_l. left. now apply (all_zero_In vecA).
Qed.

Lemma dot_zero_vector_r (vecA vecB : list number) :
  forallb is_zero vecB = true -> ZeroOrNaN (dot vecA vecB).
Proof.
  intros H. unfold dot, reduce.
  apply reduce_from_invariant; [|exact ZeroOrNaN_zero].
  intros acc val i Hin Hacc.
  apply add_ZeroOrNaN; [exact Hacc|].
  apply mul_ZeroOrNaN_r. now apply at_index_zero_vector.
Qed.

Lemma magnitudes_ZeroOrNaN (vecA vecB : list number) :
  is_zero (magnitude vecA) = true \/ is_zero (magnitude vecB) = true ->
  ZeroOrNaN (magnitude vecA * magnitude vecB)%float.
Proof.
  intros [H | H]; apply is_zero_spec in H.
  - apply mul_ZeroOrNaN_l. now left.
  - apply mul_ZeroOrNaN_r. now left.
Qed.

(** A score with a zero magnitude in its denominator is [NaN] or an
    infinity, and [NaN] when the vector is made of zeros. *)
Lemma cosineSimilarity_zero_magnitude (vecA vecB : list number) :
  is_zero (magnitude vecA) = true \/ is_zero (magnitude vecB) = true ->
  (is_nan (cosineSimilarity vecA vecB) = true
   \/ is_infinity (cosineSimilarity vecA vecB) = true)
  /\ (forallb is_zero vecA = true \/ forallb is_zero vecB = true ->
      is_nan (cosineSimilarity vecA vecB) = true).
Proof.
  intros Hmag. rewrite cosineSimilarity_eq.
  pose proof (magnitudes_ZeroOrNaN vecA vecB Hmag) as Hden.
  split; [now apply div_by_ZeroOrNaN|].
  intros Hz. apply is_nan_spec. apply div_ZeroOrNaN; [|exact Hden].
  destruct Hz; [now apply dot_zero_vector_l | now apply dot_zero_vector_r].
Qed.




(* ================================================================== *)
(** * The sort of line 144 *)

Section SortFacts.

Variable A : Type.
Variable comparefn : A -> A -> number.

Lemma insert_stable_perm (x : A) (l : list A) :
  Permutation (insert_stable comparefn x l) (x :: l).
Proof.
  induction l as [|y r IH]; cbn; [reflexivity|].
  destruct (0 <? SortCompare comparefn x y)%float; [|reflexivity].
  rewrite IH. apply perm_swap.
Qed.

Lemma stable_sort_perm (l : list A) : Permutation (stable_sort comparefn l) l.
Proof.
  induction l as [|x r IH]; cbn; [reflexivity|].
  rewrite insert_stable_perm. now constructor.
Qed.

(** Whatever positions an engine names, every position comes once. *)
Lemma each_once_perm (n : nat) (positions : list nat) :
  Permutation (each_once n positions) (seq 0 n).
Proof.
  unfold each_once.
  set (named := nodup Nat.eq_dec (filter (fun i => (i <? n)%nat) positions)).
  assert (Hnamed : forall i, In i named -> In i (seq 0 n)).
  { intros i Hi. apply nodup_In, filter_In in Hi. destruct Hi as [_ Hi].
    apply Nat.ltb_lt in Hi. apply in_seq. lia. }
  apply NoDup_Permutation.
  - apply NoDup_app.
    + apply NoDup_nodup.
    + apply NoDup_filter, seq_NoDup.
    + intros i Hi Hout. apply filter_In in Hout. destruct Hout as [_ Hout].
      apply negb_true_iff in Hout.
      assert (Hex : existsb (Nat.eqb i) named = true).
      { apply existsb_exists. exists i. split; [exact Hi | apply Nat.eqb_refl]. }
      congruence.
  - apply seq_NoDup.
  - intros i. rewrite in_app_iff, filter_In. split.
    + intros [Hi | [Hi _]]; auto.
    + intros Hi. destruct (existsb (Nat.eqb i) named) eqn:Hex.
      * left. apply existsb_exists in Hex. destruct Hex as (j & Hj & Hij).
        apply Nat.eqb_eq in Hij. now subst.
      * right. now split.
Qed.

Lemma at_positions_from (before arr : list A) :
  at_positions (before ++ arr) (seq (List.length before) (List.length arr)) = arr.
Proof.
  revert before. induction arr as [|x arr IH]; intros before; [reflexivity|].
  cbn [List.length seq]. unfold at_positions in *. cbn [flat_map].
  rewrite nth_error_app2, Nat.sub_diag by lia. cbn [nth_error app].
  f_equal. specialize (IH (before ++ [x])%list).
  rewrite <- app_assoc, length_app in IH. cbn [List.length app] in IH.
  now rewrite Nat.add_1_r in IH.
Qed.

Lemma at_positions_perm (arr : list A) (positions : list nat) :
  Permutation positions (seq 0 (List.length arr)) ->
  Permutation (at_positions arr positions) arr.
Proof.
  intros H. unfold at_positions. rewrite H.
  change (Permutation (at_positions ([] ++ arr) (seq (List.length (@nil A)) (List.length arr)))
            arr).
  now rewrite at_positions_from.
Qed.

(** The sort returns the elements it was given, on every engine. *)
Lemma sort_perm (order : engine) (l : list A) : Permutation (sort order comparefn l) l.
Proof.
  unfold sort. destruct (consistent comparefn l).
  - apply stable_sort_perm.
  - apply at_positions_perm, each_once_perm.
Qed.

Lemma sort_length (order : engine) (l : list A) :
  List.length (sort order comparefn l) = List.length l.
Proof. apply Permutation_length, sort_perm. Qed.

(** The comparator is read through an integer key on the elements that
    satisfy [ok]: its result is a number there, negative, zero or positive
    as the key of the first argument is above, at or below the key of the
    second. *)
Variable key : A -> Z.
Variable ok : A -> Prop.
Hypothesis comparefn_number :
  forall x y, ok x -> ok y -> is_nan (comparefn x y) = false.
Hypothesis comparefn_before :
  forall x y, ok x -> ok y -> before comparefn x y = (key y <? key x)%Z.
Hypothesis comparefn_tied :
  forall x y, ok x -> ok y -> tied comparefn x y = (key x =? key y)%Z.
Hypothesis comparefn_behind :
  forall x y, ok x -> ok y -> behind comparefn x y = (key x <? key y)%Z.

Lemma comparefn_key (x y : A) :
  ok x -> ok y -> (0 <? SortCompare comparefn x y)%float = (key x <? key y)%Z.
Proof.
  intros Hx Hy. unfold SortCompare.
  rewrite (comparefn_number x y Hx Hy). now apply comparefn_behind.
Qed.

Lemma insert_stable_sorted (x : A) (l : list A) :
  ok x -> Forall ok l ->
  StronglySorted (key_desc key) l -> StronglySorted (key_desc key) (insert_stable comparefn x l).
Proof.
  intros Hx Hl Hs. induction l as [|y r IH]; cbn.
  - repeat constructor.
  - inversion Hl as [|? ? Hy Hr]; subst.
    inversion Hs as [|? ? Hsr Hyr]; subst.
    rewrite (comparefn_key x y Hx Hy).
    destruct (Z.ltb_spec (key x) (key y)) as [Hlt | Hge].
    + constructor; [now apply IH|].
      apply (Permutation_Forall (x := x :: r)).
      * symmetry. apply insert_stable_perm.
      * constructor; [unfold key_desc; lia | exact Hyr].
    + constructor; [exact Hs|].
      constructor; [exact Hge|].
      eapply Forall_impl; [|exact Hyr]. unfold key_desc. intros; lia.
Qed.

Lemma stable_sort_sorted (l : list A) :
  Forall ok l -> StronglySorted (key_desc key) (stable_sort comparefn l).
Proof.
  induction l as [|x r IH]; intros Hl; cbn; [constructor|].
  inversion Hl; subst.
  apply insert_stable_sorted; auto.
  apply (Permutation_Forall (x := r)); [symmetry; apply stable_sort_perm | assumption].
Qed.

(** Stability: an element only ever passes elements with another key, so
    the elements of any one key keep their order. *)
Lemma insert_stable_filter (x : A) (l : list A) (k : Z) :
  ok x -> Forall ok l ->
  filter (fun a => key a =? k)%Z (insert_stable comparefn x l)
  = filter (fun a => key a =? k)%Z (x :: l).
Proof.
  intros Hx Hl. induction l as [|y r IH]; [reflexivity|].
  inversion Hl as [|? ? Hy Hr]; subst. cbn [insert_stable].
  rewrite (comparefn_key x y Hx Hy).
  destruct (Z.ltb_spec (key x) (key y)) as [Hlt | Hge]; [|reflexivity].
  cbn [filter]. rewrite (IH Hr). cbn [filter].
  destruct (Z.eqb_spec (key x) k), (Z.eqb_spec (key y) k); try reflexivity. lia.
Qed.

Lemma stable_sort_filter (l : list A) (k : Z) :
  Forall ok l ->
  filter (fun a => key a =? k)%Z (stable_sort comparefn l) = filter (fun a => key a =? k)%Z l.
Proof.
  induction l as [|x r IH]; intros Hl; [reflexivity|].
  inversion Hl; subst. cbn [stable_sort].
  rewrite insert_stable_filter; auto.
  - cbn [filter]. now rewrite IH.
  - apply (Permutation_Forall (x := r)); [symmetry; apply stable_sort_perm | assumption].
Qed.

(** Such a comparator is consistent in ECMAScript's sense. *)
Lemma consistent_by_key (l : list A) : Forall ok l -> consistent comparefn l = true.
Proof.
  intros Hl. rewrite Forall_forall in Hl. unfold consistent.
  apply forallb_forall. intros a Ha. apply Hl in Ha.
  apply andb_true_intro. split.
  { rewrite comparefn_tied by assumption. apply Z.eqb_refl. }
  apply forallb_forall. intros b Hb. apply Hl in Hb.
  apply andb_true_intro. split.
  { rewrite comparefn_number, !comparefn_tied by assumption. cbn.
    rewrite (Z.eqb_sym (key b)). now destruct (key a =? key b)%Z. }
  apply forallb_forall. intros c Hc. apply Hl in Hc.
  rewrite !comparefn_tied, !comparefn_before, !comparefn_behind by assumption.
  destruct (Z.eqb_spec (key a) (key b)), (Z.eqb_spec (key b) (key c)),
    (Z.eqb_spec (key a) (key c)),
    (Z.ltb_spec (key b) (key a)), (Z.ltb_spec (key c) (key b)),
    (Z.ltb_spec (key c) (key a)),
    (Z.ltb_spec (key a) (key b)), (Z.ltb_spec (key b) (key c)),
    (Z.ltb_spec (key a) (key c)); cbn; try reflexivity; lia.
Qed.

(** So the engine has no say on it: the result is the stable sorted
    order. *)
Lemma sort_consistent (order : engine) (l : list A) :
  Forall ok l -> sort order comparefn l = stable_sort comparefn l.
Proof.
  intros Hl. unfold sort. now rewrite consistent_by_key.
Qed.

End SortFacts.

(* ================================================================== *)
(** * Ranking *)

Import FloatOrder.

Lemma not_nan_spec (x : number) :
  is_nan x = false -> valid_binary (Prim2SF x) = true /\ Prim2SF x <> S754_nan.
Proof.
  intros H. split; [apply Prim2SF_valid|].
  intros Hn. apply is_nan_spec in Hn. congruence.
Qed.

Lemma sub_positive (x y : number) :
  is_nan x = false -> is_nan y = false ->
  (0 <? x - y)%float = (position y <? position x)%Z.
Proof.
  intros Hx Hy.
  destruct (not_nan_spec x Hx) as [Vx Nx]. destruct (not_nan_spec y Hy) as [Vy Ny].
  rewrite ltb_spec, sub_spec. change (Prim2SF 0) with (S754_zero false).
  now apply SFsub_positive.
Qed.

Lemma sub_negative (x y : number) :
  is_nan x = false -> is_nan y = false ->
  (x - y <? 0)%float = (position x <? position y)%Z.
Proof.
  intros Hx Hy.
  destruct (not_nan_spec x Hx) as [Vx Nx]. destruct (not_nan_spec y Hy) as [Vy Ny].
  rewrite ltb_spec, sub_spec. change (Prim2SF 0) with (S754_zero false).
  now apply SFsub_negative.
Qed.

(** A finite number is a zero or has a mantissa and an exponent. *)
Lemma is_finite_spec (x : number) :
  is_finite x = true -> is_nan x = false /\ bounded_number (Prim2SF x).
Proof.
  unfold is_finite. intros H. apply negb_true_iff, orb_false_iff in H.
  destruct H as [Hn Hi]. split; [exact Hn|].
  destruct (not_nan_spec x Hn) as [_ Nx].
  unfold is_infinity in Hi. rewrite eqb_spec, abs_spec in Hi.
  change (Prim2SF infinity) with (S754_infinity false) in Hi.
  destruct (Prim2SF x) as [s|s| |s m e]; cbn; try exact I; try congruence.
  discriminate Hi.
Qed.

Lemma sub_number (x y : number) :
  is_finite x = true -> is_finite y = true -> is_nan (x - y) = false.
Proof.
  intros Hx Hy.
  destruct (is_finite_spec x Hx) as [_ Bx]. destruct (is_finite_spec y Hy) as [_ By].
  destruct (is_nan (x - y)) eqn:Hn; [|reflexivity].
  apply is_nan_spec in Hn. unfold FNaN in Hn. rewrite sub_spec in Hn.
  exfalso. revert Hn. apply SFsub_number; auto using Prim2SF_valid.
Qed.

Lemma sub_zero (x y : number) :
  is_finite x = true -> is_finite y = true ->
  (x - y =? 0)%float = (position x =? position y)%Z.
Proof.
  intros Hx Hy.
  pose proof (sub_number x y Hx Hy) as Hn.
  destruct (not_nan_spec _ Hn) as [_ Nr].
  destruct (is_finite_spec x Hx) as [Nx _]. destruct (is_finite_spec y Hy) as [Ny _].
  pose proof (sub_positive x y Nx Ny) as Hpos.
  pose proof (sub_negative x y Nx Ny) as Hneg.
  rewrite ltb_spec in Hpos, Hneg. rewrite eqb_spec.
  change (Prim2SF 0) with (S754_zero false) in *.
  rewrite (SFeqb_zero _ Nr), Hpos, Hneg.
  destruct (Z.ltb_spec (position x) (position y)), (Z.ltb_spec (position y) (position x)),
    (Z.eqb_spec (position x) (position y)); cbn; try reflexivity; lia.
Qed.

Lemma leb_position (x y : number) :
  is_nan x = false -> is_nan y = false ->
  (x <=? y)%float = (position x <=? position y)%Z.
Proof.
  intros Hx Hy.
  destruct (not_nan_spec x Hx) as [Vx Nx]. destruct (not_nan_spec y Hy) as [Vy Ny].
  rewrite leb_spec. unfold SFleb, position.
  rewrite (SFcompare_scale _ _ Vx Vy Nx Ny). unfold Z.leb.
  now destruct (scale (Prim2SF x) ?= scale (Prim2SF y))%Z.
Qed.

Lemma eqb_position (x y : number) :
  is_nan x = false -> is_nan y = false ->
  (x =? y)%float = (position x =? position y)%Z.
Proof.
  intros Hx Hy.
  destruct (not_nan_spec x Hx) as [Vx Nx]. destruct (not_nan_spec y Hy) as [Vy Ny].
  rewrite eqb_spec. unfold SFeqb, position.
  rewrite (SFcompare_scale _ _ Vx Vy Nx Ny).
  destruct (Z.compare_spec (scale (Prim2SF x)) (scale (Prim2SF y))) as [H|H|H];
    symmetry; [apply Z.eqb_eq | apply Z.eqb_neq | apply Z.eqb_neq]; lia.
Qed.

Lemma eqb_nan_r (x s : number) : is_nan s = true -> (x =? s)%float = false.
Proof.
  intros H. apply is_nan_spec in H. rewrite eqb_spec, H.
  unfold SFeqb. now destruct (Prim2SF x).
Qed.

Lemma finite_numeric (a : scored) : finite a -> numeric a.
Proof. intros H. now destruct (is_finite_spec _ H). Qed.

(** The comparator of line 144 on finite scores: a number, negative, zero
    or positive as the score of [a] is above, at or below the score of
    [b]. *)
Lemma bySimilarityDesc_number (a b : scored) :
  finite a -> finite b -> is_nan (bySimilarityDesc a b) = false.
Proof. intros Ha Hb. now apply sub_number. Qed.

Lemma bySimilarityDesc_before (a b : scored) :
  finite a -> finite b ->
  before bySimilarityDesc a b = (position (similarity b) <? position (similarity a))%Z.
Proof. intros Ha Hb. apply sub_negative; now apply finite_numeric. Qed.

Lemma bySimilarityDesc_tied (a b : scored) :
  finite a -> finite b ->
  tied bySimilarityDesc a b = (position (similarity a) =? position (similarity b))%Z.
Proof.
  intros Ha Hb. unfold tied, bySimilarityDesc.
  rewrite (sub_zero _ _ Hb Ha). apply Z.eqb_sym.
Qed.

Lemma bySimilarityDesc_behind (a b : scored) :
  finite a -> finite b ->
  behind bySimilarityDesc a b = (position (similarity a) <? position (similarity b))%Z.
Proof. intros Ha Hb. apply sub_positive; now apply finite_numeric. Qed.

Lemma finite_scores_finite (queryEmbedding : list number) (corpus : list Doc.song) :
  finite_scores queryEmbedding corpus = true ->
  Forall finite (map (score queryEmbedding) corpus).
Proof.
  unfold finite_scores. rewrite forallb_forall. intros H.
  apply Forall_forall. intros a Ha. apply in_map_iff in Ha.
  destruct Ha as (song & <- & Hin). unfold finite; cbn. now apply H.
Qed.

Lemma StronglySorted_impl_on {A} (P : A -> Prop) (R R' : A -> A -> Prop) (l : list A) :
  (forall a b, P a -> P b -> R a b -> R' a b) ->
  Forall P l -> StronglySorted R l -> StronglySorted R' l.
Proof.
  intros Himp Hl Hs. induction Hs as [|x l Hs IH Hx]; [constructor|].
  inversion Hl as [|? ? Px Pl]; subst.
  constructor; [now apply IH|].
  rewrite Forall_forall in *. intros y Hy. apply Himp; auto.
Qed.

Lemma rank_length (order : engine) (queryEmbedding : list number) (corpus : list Doc.song) :
  List.length (rank order queryEmbedding corpus) = Nat.min 5 (List.length corpus).
Proof.
  unfold rank, slice0. now rewrite length_firstn, sort_length, length_map.
Qed.

(** The output is made of corpus records with their scores. *)
Lemma rank_perm (order : engine) (queryEmbedding : list number) (corpus : list Doc.song) :
  exists others,
    Permutation (rank order queryEmbedding corpus ++ others)
      (map (score queryEmbedding) corpus).
Proof.
  unfold rank, slice0.
  exists (skipn 5 (sort order bySimilarityDesc (map (score queryEmbedding) corpus))).
  rewrite firstn_skipn. apply sort_perm.
Qed.

Lemma filter_none {A} (p : A -> bool) (l : list A) :
  (forall a, In a l -> p a = false) -> filter p l = [].
Proof.
  induction l as [|x r IH]; intros H; cbn; [reflexivity|].
  rewrite (H x) by now left. apply IH. intros a Ha. apply H. now right.
Qed.

Lemma filter_score_position (s : number) (l : list scored) :
  is_nan s = false -> Forall numeric l ->
  filter (fun a => similarity a =? s)%float l
  = filter (fun a => position (similarity a) =? position s)%Z l.
Proof.
  intros Hs Hl. apply filter_ext_in. intros a Ha.
  rewrite Forall_forall in Hl. apply eqb_position; [now apply Hl | exact Hs].
Qed.

(** On finite scores the sort of line 144 leaves the whole array sorted
    by non-increasing score, the records of any one score in the order
    they had, whatever the engine. *)
Lemma sort_by_similarity (order : engine) (l : list scored) :
  Forall finite l ->
  StronglySorted by_score_desc (sort order bySimilarityDesc l)
  /\ forall s, filter (fun a => similarity a =? s)%float (sort order bySimilarityDesc l)
               = filter (fun a => similarity a =? s)%float l.
Proof.
  intros Hl.
  assert (Hnum : Forall numeric l).
  { eapply Forall_impl; [|exact Hl]. apply finite_numeric. }
  rewrite (sort_consistent _ bySimilarityDesc (fun a => position (similarity a)) finite
             bySimilarityDesc_number bySimilarityDesc_before bySimilarityDesc_tied
             bySimilarityDesc_behind order l Hl).
  assert (Hperm : Permutation l (stable_sort bySimilarityDesc l))
    by (symmetry; apply stable_sort_perm).
  assert (Hsorted_fin : Forall finite (stable_sort bySimilarityDesc l))
    by (apply (Permutation_Forall Hperm); exact Hl).
  assert (Hsorted_num : Forall numeric (stable_sort bySimilarityDesc l))
    by (apply (Permutation_Forall Hperm); exact Hnum).
  split.
  - apply (StronglySorted_impl_on numeric
             (key_desc (fun a => position (similarity a))) by_score_desc).
    + intros a b Ha Hb Hab. unfold by_score_desc.
      rewrite (leb_position _ _ Hb Ha). apply Z.leb_le. exact Hab.
    + exact Hsorted_num.
    + apply (stable_sort_sorted _ bySimilarityDesc (fun a => position (similarity a)) finite
               bySimilarityDesc_number bySimilarityDesc_behind). exact Hl.
  - intros s. destruct (is_nan s) eqn:Hs.
    + rewrite !filter_none; auto using eqb_nan_r.
    + rewrite (filter_score_position s l Hs Hnum).
      rewrite (filter_score_position s _ Hs Hsorted_num).
      apply (stable_sort_filter _ bySimilarityDesc (fun a => position (similarity a)) finite
               bySimilarityDesc_number bySimilarityDesc_behind). exact Hl.
Qed.

(** A [NaN] score next to another score is in no order: [NaN] compares
    with nothing. *)
Lemma NaN_is_unsorted (l : list scored) :
  (2 <= List.length l)%nat -> Exists (fun a => is_nan (similarity a) = true) l ->
  ~ StronglySorted by_score_desc l.
Proof.
  intros Hlen Hex Hs.
  assert (Hpair : forall a b, by_score_desc a b ->
            is_nan (similarity a) = false /\ is_nan (similarity b) = false).
  { intros a b Hab. unfold by_score_desc in Hab. rewrite leb_spec in Hab.
    split; destruct (is_nan _) eqn:Hn; try reflexivity;
      apply is_nan_spec in Hn; unfold FNaN in Hn; rewrite Hn in Hab;
      unfold SFleb in Hab; cbn in Hab; try discriminate.
    destruct (Prim2SF (similarity b)); discriminate. }
  induction Hs as [|x l Hs IH Hx].
  - cbn in Hlen. lia.
  - destruct l as [|y r]; [cbn in Hlen; lia|].
    inversion Hx as [|? ? Hxy Hxr]; subst.
    destruct (Hpair _ _ Hxy) as [Hxn Hyn].
    inversion Hex as [? ? Hnan | ? ? Hrest]; subst; [congruence|].
    destruct r as [|z r'].
    + inversion Hrest as [? ? Hnan | ? ? Hnil]; subst; [congruence | inversion Hnil].
    + apply IH; [cbn; lia | exact Hrest].
Qed.

(** C4, as stated, fails: the number of results is not a parameter.  On
    the three-record corpus of the specification's scenario the search
    returns all three records (first [1,0], then [1,1], then [0,1]), not
    two for [k = 2] and not none for [k = 0].  And an output that holds a
    [NaN] score next to another score is not sorted by score, in whatever
    order the engine leaves it: [NaN] compares with nothing. *)
Lemma rank_has_no_k :
  (forall order, map songId (rank order [1; 0]%float scenario_corpus) = [1; 3; 2]%N)
  /\ ~ (forall (k : nat) order queryEmbedding corpus,
          List.length (rank order queryEmbedding corpus) = Nat.min k (List.length corpus))
  /\ (forall order, ~ StronglySorted by_score_desc (rank order [1; 0]%float silent_corpus)).
Proof.
  split; [intros order; vm_compute; reflexivity|]. split.
  - intros H. specialize (H 0%nat short_array_order [1; 0]%float scenario_corpus).
    rewrite rank_length in H. cbn in H. discriminate.
  - intros order. apply NaN_is_unsorted.
    + rewrite rank_length. cbn. lia.
    + destruct (rank_perm order [1; 0]%float silent_corpus) as [others Hperm].
      assert (Hothers : others = []).
      { apply Permutation_length in Hperm.
        rewrite length_app, rank_length in Hperm. cbn in Hperm.
        destruct others; [reflexivity | cbn in Hperm; lia]. }
      subst others. rewrite app_nil_r in Hperm.
      apply Exists_exists.
      exists (score [1; 0]%float (record_with 4%N "silence" [0; 0]%float)). split.
      * apply (Permutation_in _ (Permutation_sym Hperm)). now left.
      * vm_compute. reflexivity.
Qed.

(** C4, amended. The search keeps five results, a constant of the source.
    For every query embedding and corpus, on every engine, the ranked
    output has length [min 5 |corpus|] and consists of corpus records with
    their scores.  When every score is a finite number, the output is the
    head of the whole corpus sorted by non-increasing score: the corpus
    records left out, put behind it, complete it to a permutation of the
    scored corpus that is sorted, and in which the records of any one score
    stand in their corpus order. *)
Theorem rank_top_five (order : engine) (queryEmbedding : list number)
  (corpus : list Doc.song) :
  List.length (rank order queryEmbedding corpus) = Nat.min 5 (List.length corpus)
  /\ (exists others,
        Permutation (rank order queryEmbedding corpus ++ others)
          (map (score queryEmbedding) corpus))
  /\ (finite_scores queryEmbedding corpus = true ->
      exists others,
        Permutation (rank order queryEmbedding corpus ++ others)
          (map (score queryEmbedding) corpus)
        /\ StronglySorted by_score_desc (rank order queryEmbedding corpus ++ others)
        /\ forall s,
             filter (fun a => similarity a =? s)%float
               (rank order queryEmbedding corpus ++ others)
             = filter (fun a => similarity a =? s)%float
                 (map (score queryEmbedding) corpus)).
Proof.
  split; [apply rank_length|]. split; [apply rank_perm|].
  intros H. apply finite_scores_finite in H.
  exists (skipn 5 (sort order bySimilarityDesc (map (score queryEmbedding) corpus))).
  unfold rank, slice0. rewrite firstn_skipn.
  destruct (sort_by_similarity order _ H) as [Hsorted Hstable].
  split; [apply sort_perm|]. split; [exact Hsorted | exact Hstable].
Qed.

(** On a corpus of seven records with finite scores, two of them the best
    and standing third and sixth: the five returned are the best five of
    the seven, the tie in corpus order. *)
Lemma rank_top_five_of_seven :
  map songId (rank short_array_order [1; 0]%float wide_corpus) = [3; 6; 7; 2; 4]%N
  /\ List.length (rank short_array_order [1; 0]%float wide_corpus)
     = Nat.min 5 (List.length wide_corpus)
  /\ exists others,
       Permutation (rank short_array_order [1; 0]%float wide_corpus ++ others)
         (map (score [1; 0]%float) wide_corpus)
       /\ StronglySorted by_score_desc
            (rank short_array_order [1; 0]%float wide_corpus ++ others)
       /\ forall s,
            filter (fun a => similarity a =? s)%float
              (rank short_array_order [1; 0]%float wide_corpus ++ others)
            = filter (fun a => similarity a =? s)%float
                (map (score [1; 0]%float) wide_corpus).
Proof.
  split; [vm_compute; reflexivity|].
  destruct (rank_top_five short_array_order [1; 0]%float wide_corpus) as (Hlen & _ & Hsorted).
  split; [exact Hlen|].
  apply Hsorted. vm_compute. reflexivity.
Defined.

(* ================================================================== *)
(** * What the search returns *)

Lemma forEach_tell {A} (f : A -> event) (arr : list A) (w : world) :
  forEach arr (fun x => tell (f x)) w
  = (inr tt, {| songs := songs w; songs_audio := songs_audio w;
                trace := trace w ++ map f arr |}).
Proof.
  revert w. induction arr as [|x rest IH]; intros w; cbn [forEach map].
  - unfold ret. rewrite app_nil_r. now destruct w.
  - unfold bind. unfold tell at 1. rewrite IH. unfold emit; cbn.
    now rewrite <- app_assoc.
Qed.


(** The search does nothing to a score: every element of the output is a
    corpus record with its score as computed. *)
Lemma rank_scores_as_computed (order : engine) (queryEmbedding : list number)
  (corpus : list Doc.song) (a : scored) :
  In a (rank order queryEmbedding corpus) ->
  In (songData a) corpus
  /\ similarity a = cosineSimilarity queryEmbedding (Doc.embedding (songData a)).
Proof.
  unfold rank, slice0. intros Hin.
  assert (Hs : In a (sort order bySimilarityDesc (map (score queryEmbedding) corpus))).
  { rewrite <- (firstn_skipn 5). apply in_or_app. now left. }
  apply (Permutation_in _ (sort_perm _ bySimilarityDesc order _)) in Hs.
  apply in_map_iff in Hs. destruct Hs as (song & <- & Hsong). now split.
Qed.

(** Every record of a corpus of at most five is in the output, with its
    score as computed. *)
Lemma rank_keeps_score (order : engine) (queryEmbedding : list number)
  (corpus : list Doc.song) (song : Doc.song) :
  In song corpus -> (List.length corpus <= 5)%nat ->
  In (score queryEmbedding song) (rank order queryEmbedding corpus).
Proof.
  intros Hin Hlen. unfold rank, slice0.
  rewrite firstn_all2 by (now rewrite sort_length, length_map).
  apply (Permutation_in (l := map (score queryEmbedding) corpus)).
  - symmetry. apply sort_perm.
  - now apply in_map.
Qed.

(** C3, as stated, fails: against a query of zeros every score is [NaN],
    not 0, and the search returns those [NaN] scores. *)
Lemma zero_vector_scores_NaN :
  is_nan (cosineSimilarity [0; 0]%float [1; 2]%float) = true
  /\ (cosineSimilarity [0; 0]%float [1; 2]%float =? 0)%float = false
  /\ exists topSongs,
       fst (findSimilarSongs (answering full_result [0; 0]%float 1%N) "silence"
              scenario_world) = inr topSongs
       /\ map (fun a => is_nan (similarity a)) topSongs = [true; true; true].
Proof.
  split; [vm_compute; reflexivity|]. split; [vm_compute; reflexivity|].
  eexists. split; vm_compute; reflexivity.
Qed.

(** C3, amended. For every pair of vectors where at least one has zero
    magnitude, the score is never 0: it is [NaN] or an infinity, and it is
    [NaN] whenever that vector consists of zeros; the score, [NaN]
    included, is carried as it is into the ranked output (every element of
    the output has its score as computed, and in a corpus of at most five
    every record is in the output). *)
Theorem zero_magnitude_score (vecA vecB : list number) :
  is_zero (magnitude vecA) = true \/ is_zero (magnitude vecB) = true ->
  (is_nan (cosineSimilarity vecA vecB) = true
   \/ is_infinity (cosineSimilarity vecA vecB) = true)
  /\ (forallb is_zero vecA = true \/ forallb is_zero vecB = true ->
      is_nan (cosineSimilarity vecA vecB) = true)
  /\ (forall order corpus a,
        In a (rank order vecA corpus) -> Doc.embedding (songData a) = vecB ->
        similarity a = cosineSimilarity vecA vecB)
  /\ (forall order corpus song,
        In song corpus -> Doc.embedding song = vecB -> (List.length corpus <= 5)%nat ->
        exists a, In a (rank order vecA corpus)
                  /\ songData a = song
                  /\ similarity a = cosineSimilarity vecA vecB).
Proof.
  intros Hmag.
  destruct (cosineSimilarity_zero_magnitude vecA vecB Hmag) as [H1 H2].
  split; [exact H1|]. split; [exact H2|]. split.
  - intros order corpus a Hin Hemb.
    destruct (rank_scores_as_computed order vecA corpus a Hin) as [_ ->]. now rewrite Hemb.
  - intros order corpus song Hin Hemb Hlen.
    exists (score vecA song). split; [now apply rank_keeps_score|].
    split; [reflexivity|]. cbn. now rewrite Hemb.
Qed.

Lemma zero_magnitude_score_sample :
  (is_nan (cosineSimilarity [0; 0]%float [1; 2]%float) = true
   \/ is_infinity (cosineSimilarity [0; 0]%float [1; 2]%float) = true)
  /\ (forallb is_zero [0; 0]%float = true \/ forallb is_zero [1; 2]%float = true ->
      is_nan (cosineSimilarity [0; 0]%float [1; 2]%float) = true)
  /\ (forall order corpus a,
        In a (rank order [0; 0]%float corpus) -> Doc.embedding (songData a) = [1; 2]%float ->
        similarity a = cosineSimilarity [0; 0]%float [1; 2]%float)
  /\ (forall order corpus song,
        In song corpus -> Doc.embedding song = [1; 2]%float ->
        (List.length corpus <= 5)%nat ->
        exists a, In a (rank order [0; 0]%float corpus)
                  /\ songData a = song
                  /\ similarity a = cosineSimilarity [0; 0]%float [1; 2]%float).
Proof.
  apply (zero_magnitude_score [0; 0]%float [1; 2]%float).
  left. vm_compute. reflexivity.
Defined.


(** A stored vector shorter than the query's scores [NaN]; the comparator
    of line 144 is then not consistent and the order is the engine's.  On
    V8's order for short arrays the record with the [NaN] score, the fifth
    of six, is passed by the exact match behind it and is the one left
    out. *)
Lemma rank_with_short_vector :
  consistent bySimilarityDesc (map (score [1; 0]%float) drifted_corpus) = false
  /\ map songId (rank short_array_order [1; 0]%float drifted_corpus) = [6; 3; 2; 4; 1]%N
  /\ map (fun a => is_nan (similarity a)) (map (score [1; 0]%float) drifted_corpus)
     = [false; false; false; false; true; false].
Proof. repeat split; vm_compute; reflexivity. Qed.



(* ================================================================== *)
(** * Streams into buffers: what the returned promise settles with *)

Lemma collect_data (cs : list Buffer) (c : collector) :
  fold_left on_event (map Data cs) c
  = {| chunks := chunks c ++ cs; returned := returned c |}.
Proof.
  revert c. induction cs as [|chunk cs IH]; intros c; cbn.
  - rewrite app_nil_r. now destruct c.
  - rewrite IH. cbn. now rewrite <- app_assoc.
Qed.

(** A settled promise is not settled again. *)
Lemma settled_for_good (stream : list stream_event) (c : collector) :
  returned c <> Pending -> returned (fold_left on_event stream c) = returned c.
Proof.
  revert c. induction stream as [|ev stream IH]; intros c Hc; [reflexivity|].
  cbn [fold_left]. rewrite IH.
  - destruct ev; cbn; [reflexivity| |]; now destruct (returned c).
  - destruct ev; cbn; [exact Hc| |]; now destruct (returned c).
Qed.

(** X1. A stream that emits chunks and then ['end'] gives the chunks
    concatenated in the order they came; whatever it emits after ['end']
    changes nothing. *)
Theorem streamToBuffer_end (cs : list Buffer) (rest : list stream_event) :
  streamToBuffer (map Data cs ++ End_ :: rest) = Fulfilled (List.concat cs).
Proof.
  unfold streamToBuffer. rewrite fold_left_app, collect_data. cbn [fold_left].
  now rewrite settled_for_good.
Qed.

(** X2. A stream that errors before it ends rejects the promise with that
    error: the chunks collected so far are dropped, and a later ['end'] or
    a second error is not heard. *)
Theorem streamToBuffer_error (cs : list Buffer) (err : exn) (rest : list stream_event) :
  streamToBuffer (map Data cs ++ Error err :: rest) = RejectedWith err.
Proof.
  unfold streamToBuffer. rewrite fold_left_app, collect_data. cbn [fold_left].
  now rewrite settled_for_good.
Qed.

(** X3. The promise stays pending exactly when the stream emits neither
    ['end'] nor ['error']: there is no timeout behind it. *)
Theorem streamToBuffer_pending (stream : list stream_event) :
  streamToBuffer stream = Pending
  <-> forall ev, In ev stream -> exists chunk, ev = Data chunk.
Proof.
  unfold streamToBuffer.
  assert (Hgen : forall c, returned c = Pending ->
            (returned (fold_left on_event stream c) = Pending
             <-> forall ev, In ev stream -> exists chunk, ev = Data chunk)).
  { induction stream as [|ev stream IH]; intros c Hc; cbn [fold_left].
    - split; [intros _ ev []|intros _; exact Hc].
    - destruct ev as [chunk| |err].
      + rewrite IH by exact Hc. split.
        * intros H ev [<- | Hin]; eauto.
        * intros H ev Hin. apply H. now right.
      + split.
        * rewrite settled_for_good by (cbn; rewrite Hc; discriminate).
          cbn. rewrite Hc. discriminate.
        * intros H. destruct (H End_ (or_introl eq_refl)) as [chunk Habs]. discriminate.
      + split.
        * rewrite settled_for_good by (cbn; rewrite Hc; discriminate).
          cbn. rewrite Hc. discriminate.
        * intros H. destruct (H (Error err) (or_introl eq_refl)) as [chunk Habs].
          discriminate. }
  now apply Hgen.
Qed.

(* ================================================================== *)
(** * Download from the bucket *)

Lemma bucket_file_fresh (id : ObjectId) (files : list gridfs_file) (f : gridfs_file) :
  (forall g, In g files -> file_id g <> id) -> file_id f = id ->
  find (fun g => N.eqb (file_id g) id) (files ++ [f]) = Some f.
Proof.
  intros Hfresh Hid. induction files as [|g files IH]; cbn.
  - now rewrite Hid, N.eqb_refl.
  - destruct (N.eqb_spec (file_id g) id) as [Heq | _].
    + exfalso. apply (Hfresh g); [now left | exact Heq].
    + apply IH. intros h Hh. apply Hfresh. now right.
Qed.

(** X4. Round trip through the bucket: a buffer uploaded under an
    identifier no other file of the bucket has is what a later download of
    that identifier writes, byte for byte, to the output path, and the
    promise resolves with that path. *)
Theorem download_after_upload (d : download_env) (id : ObjectId) (buffer : Buffer)
  (filename : string) (outputPath : option string) (w : world) :
  (forall g, In g (songs_audio w) -> file_id g <> id) ->
  connect_l157 d = inr tt -> downloadStream_l161 d = inr tt ->
  writeStream_l162 d = inr tt ->
  let path := match outputPath with
              | Some p => p
              | None => "./downloaded_song.mp3"%string
              end in
  exists w1,
    uploadToGridFS (inr id) buffer filename w = (inr id, w1)
    /\ downloadSongFromGridFS d (WellFormed id) outputPath w1
       = (Fulfilled path,
          emit (EvLog [AStr "✅ Download complete:"; AStr path]) (emit (EvConnect true) w1),
          [Written path buffer]).
Proof.
  intros Hfresh Hc Hd Hw path.
  eexists. split; [reflexivity|].
  unfold downloadSongFromGridFS, connectToDatabase, downloadStream_read, bucket_file.
  rewrite Hc, Hw, Hd. cbn [songs_audio emit].
  rewrite (bucket_file_fresh id (songs_audio w)
             {| file_id := id; file_name := filename; file_data := buffer |} Hfresh eq_refl).
  reflexivity.
Qed.

Lemma download_after_upload_sample :
  exists w1,
    uploadToGridFS (inr 9%N) [Byte.x49; Byte.x44; Byte.x33] "mayday.mp3" empty_world
    = (inr 9%N, w1)
    /\ downloadSongFromGridFS download_answers (WellFormed 9%N) None w1
       = (Fulfilled "./downloaded_song.mp3"%string,
          emit (EvLog [AStr "✅ Download complete:"; AStr "./downloaded_song.mp3"])
            (emit (EvConnect true) w1),
          [Written "./downloaded_song.mp3" [Byte.x49; Byte.x44; Byte.x33]]).
Proof.
  apply (download_after_upload download_answers
           9%N [Byte.x49; Byte.x44; Byte.x33] "mayday.mp3" None empty_world);
    try reflexivity.
  intros g [].
Defined.

(** X5. A download never releases the connection it acquires (there is no
    [closeConnection] in it, not even on success), and it never changes
    the two collections. *)
Theorem download_keeps_connection (d : download_env) (fileId : file_ref)
  (outputPath : option string) (w : world) :
  let w' := snd (fst (downloadSongFromGridFS d fileId outputPath w)) in
  closes (trace w') = closes (trace w)
  /\ songs w' = songs w
  /\ songs_audio w' = songs_audio w
  /\ (connect_l157 d = inr tt ->
      acquisitions (trace w') = S (acquisitions (trace w))).
Proof.
  unfold downloadSongFromGridFS, connectToDatabase, downloadStream_read, bucket_file.
  destruct (connect_l157 d) as [err|[]]; cbn.
  - unfold closes. rewrite filter_app, length_app. cbn.
    repeat split; try lia. discriminate.
  - assert (Hc : closes (trace w ++ [EvConnect true]) = closes (trace w))
      by (unfold closes; rewrite filter_app, length_app; cbn; lia).
    assert (Ha : acquisitions (trace w ++ [EvConnect true]) = S (acquisitions (trace w)))
      by (unfold acquisitions; rewrite filter_app, length_app; cbn; lia).
    destruct fileId as [id|]; cbn; [|now auto].
    destruct (writeStream_l162 d) as [err|[]], (find _ (songs_audio w)) as [f|],
      (downloadStream_l161 d) as [lost|[]]; cbn; try (now auto).
    unfold closes, acquisitions in *.
    rewrite !filter_app, !length_app in *. cbn in *. repeat split; try lia.
Qed.



(* ================================================================== *)
(** * The search, path by path *)

Lemma findSimilarSongs_run (e : env) (queryText : string) (w : world) :
  findSimilarSongs e queryText w
  = match embedContent e queryText with
    | inl err => (inl err, w)
    | inr queryEmbedding =>
        match connect_l135 e with
        | inl err => (inl err, emit (EvConnect false) w)
        | inr _ =>
            match find_l138 e with
            | inl err => (inl err, emit (EvConnect true) w)
            | inr _ =>
                let topSongs := rank (sort_l144 e) queryEmbedding (songs w) in
                let printed :=
                  {| songs := songs w;
                     songs_audio := songs_audio w;
                     trace := trace w ++ EvConnect true
                                :: EvLog [AStr "🎵 Top 5 similar songs:"]
                                :: map similarity_line topSongs |} in
                match closeConnection_l152 e with
                | inl err => (inl err, emit (EvClose false) printed)
                | inr _ => (inr topSongs, emit (EvClose true) printed)
                end
            end
        end
    end.
Proof.
  unfold findSimilarSongs, find_toArray, connectToDatabase, closeConnection, bind, lift.
  destruct (embedContent e queryText) as [err|queryEmbedding]; [reflexivity|].
  destruct (connect_l135 e) as [err|[]]; [reflexivity|].
  cbn -[forEach tell rank].
  destruct (find_l138 e) as [err|[]]; [reflexivity|].
  cbn -[forEach tell rank].
  unfold tell at 1.
  rewrite (forEach_tell similarity_line).
  unfold emit; cbn -[rank].
  rewrite <- !app_assoc. cbn -[rank].
  destruct (closeConnection_l152 e) as [err|[]]; reflexivity.
Qed.


(** X8. The search is read-only: on every path, failing or not, the
    [songs] collection and the bucket are what they were. *)
Theorem findSimilarSongs_read_only (e : env) (queryText : string) (w : world) :
  songs (snd (findSimilarSongs e queryText w)) = songs w
  /\ songs_audio (snd (findSimilarSongs e queryText w)) = songs_audio w.
Proof.
  rewrite findSimilarSongs_run.
  destruct (embedContent e queryText); [now split|].
  destruct (connect_l135 e); [now split|].
  destruct (find_l138 e); [now split|].
  destruct (closeConnection_l152 e); now split.
Qed.

(** X9. The query is embedded before the database is contacted: when the
    embedding call fails, the search rejects with that error and has
    neither acquired a connection nor printed anything. *)
Theorem findSimilarSongs_embedding_fails (e : env) (queryText : string) (w : world)
  (err : exn) :
  embedContent e queryText = inl err ->
  findSimilarSongs e queryText w = (inl err, w).
Proof.
  intros H. now rewrite findSimilarSongs_run, H.
Qed.

Lemma findSimilarSongs_embedding_fails_sample :
  findSimilarSongs
    embedding_fails "sea" scenario_world
  = (inl (Rejected "GoogleGenerativeAIError"), scenario_world).
Proof.
  apply (findSimilarSongs_embedding_fails embedding_fails "sea" scenario_world
           (Rejected "GoogleGenerativeAIError")).
  reflexivity.
Defined.



(** What a search of the scenario prints, line by line. *)
Lemma findSimilarSongs_prints :
  trace (snd (findSimilarSongs (answering full_result [1; 0]%float 1%N) "sea"
                scenario_world))
  = [EvConnect true;
     EvLog [AStr "🎵 Top 5 similar songs:"];
     EvLog [AStr "- a | Similarity: 1.0000"];
     EvLog [AStr "- c | Similarity: 0.7071"];
     EvLog [AStr "- b | Similarity: 0.0000"];
     EvClose true].
Proof. vm_compute. reflexivity. Qed.

(** [toFixed(4)] on a few numbers: rounding to the nearest, the larger of
    two equally near (0.03125), a sign on a negative number that rounds to
    zero, and the names of what is no finite number. *)
Lemma toFixed_samples :
  map (fun x => toFixed x 4)
    [0.5; 0.03125; -0x1p-20; -0; 0x1.6a09e667f3bccp-1; nan; infinity; 0x1p70]%float
  = ["0.5000"; "0.0313"; "-0.0000"; "0.0000"; "0.7071"; "NaN"; "Infinity";
     "1.1805916207174113e+21"]%string.
Proof. vm_compute. reflexivity. Qed.

(* ================================================================== *)
(** * Ingestion: invariants of the two collections *)

Lemma inserted_iff (e : env) (songUrl : string) (w : world) :
  (exists doc, inserted e songUrl w = Some doc)
  <-> all_answer e songUrl = true /\ stored songUrl w = None.
Proof.
  unfold inserted, all_answer.
  destruct (connect_l78 e); cbn; [split; [intros [? ?]|intros [? ?]]; discriminate|].
  destruct (connect_l64 e); cbn; [split; [intros [? ?]|intros [? ?]]; discriminate|].
  destruct (findOne_l66 e); cbn; [split; [intros [? ?]|intros [? ?]]; discriminate|].
  destruct (stages e songUrl) as [?|[[[result embedding] songBuffer] gridFSId]]; cbn.
  - destruct (stored songUrl w); split; intros [? ?]; discriminate.
  - destruct (songData_of e songUrl result gridFSId (basename songUrl) embedding); cbn.
    + destruct (stored songUrl w); split; intros [? ?]; discriminate.
    + destruct (insertOne_l121 e); cbn.
      * destruct (stored songUrl w); split; intros [? ?]; discriminate.
      * destruct (stored songUrl w); split; intros [? ?]; try discriminate; eauto.
Qed.

Lemma inserted_key (e : env) (songUrl : string) (w : world) (doc : Doc.song) :
  inserted e songUrl w = Some doc ->
  Doc.songUrl doc = songUrl /\ stored songUrl w = None.
Proof.
  intros H.
  destruct (inserted_Some _ _ _ _ H)
    as (result & embedding & songBuffer & gridFSId & songData & id
        & Hnew & _ & Hdata & _ & ->).
  split; [|exact Hnew].
  apply (songData_of_fields _ _ _ _ _ _ _ id Hdata).
Qed.

Lemma stored_None_not_In (songUrl : string) (w : world) :
  stored songUrl w = None -> ~ In songUrl (map Doc.songUrl (songs w)).
Proof.
  unfold stored. intros H Hin. apply in_map_iff in Hin.
  destruct Hin as (d & Hd & Hin).
  pose proof (find_none _ _ H d Hin) as Hf. cbn in Hf.
  rewrite Hd, String.eqb_refl in Hf. discriminate.
Qed.

(** X11. A record is stored exactly when the key has no record yet and
    every call of the run before the release answers (with a response that
    has the three mappings); in every other case the collection keeps its
    size. *)
Theorem ingest_stores_iff (e : env) (songUrl : string) (w : world) :
  let w' := snd (fetchLyricsAndStore e songUrl w) in
  ((exists doc, songs w' = songs w ++ [doc])
   <-> all_answer e songUrl = true /\ records_for songUrl (songs w) = 0)
  /\ (List.length (songs w') = List.length (songs w)
      \/ List.length (songs w') = S (List.length (songs w))).
Proof.
  cbv zeta. rewrite fetchLyricsAndStore_songs, <- stored_None_iff, <- inserted_iff.
  destruct (inserted e songUrl w) as [doc|]; cbn [opt_list]; split.
  - split; eauto.
  - right. rewrite length_app. cbn. lia.
  - split; [|intros [? ?]; discriminate].
    intros [doc H]. apply app_inv_head in H. discriminate.
  - left. now rewrite app_nil_r.
Qed.

(** X12. Run after run, ingestion keeps the source keys unique: if no two
    records of the collection share a [songUrl] before a run, none do
    after it, whatever the outside answers. *)
Theorem ingest_keeps_keys_unique (e : env) (songUrl : string) (w : world) :
  unique_keys (songs w) ->
  unique_keys (songs (snd (fetchLyricsAndStore e songUrl w))).
Proof.
  unfold unique_keys. intros Hu. rewrite fetchLyricsAndStore_songs.
  destruct (inserted e songUrl w) as [doc|] eqn:Hins; cbn [opt_list].
  - destruct (inserted_key _ _ _ _ Hins) as [Hkey Hnew].
    rewrite map_app. cbn [map]. rewrite Hkey.
    apply NoDup_app; [exact Hu | repeat constructor; intros [] |].
    intros a Ha [<- | []]. exact (stored_None_not_In _ _ Hnew Ha).
  - now rewrite app_nil_r.
Qed.

Lemma ingest_keeps_keys_unique_sample :
  unique_keys
    (songs (snd (fetchLyricsAndStore (answering full_result [1; 0]%float 5%N)
                   mayday scenario_world))).
Proof.
  apply (ingest_keeps_keys_unique (answering full_result [1; 0]%float 5%N)
           mayday scenario_world).
  unfold unique_keys. cbn.
  repeat constructor; cbn; intuition discriminate.
Defined.

(** X13. A run for one key never touches the records of another: the
    documents that were there stay, in place and unchanged, whatever is
    added has the key of the run, and the number of records of every other
    key is what it was. *)
Theorem ingest_leaves_other_keys (e : env) (songUrl other : string) (w : world) :
  other <> songUrl ->
  let w' := snd (fetchLyricsAndStore e songUrl w) in
  records_for other (songs w') = records_for other (songs w)
  /\ firstn (List.length (songs w)) (songs w') = songs w
  /\ (forall d, In d (skipn (List.length (songs w)) (songs w')) ->
      Doc.songUrl d = songUrl).
Proof.
  intros Hne. cbv zeta. rewrite fetchLyricsAndStore_songs.
  rewrite records_for_app, firstn_app, firstn_all, Nat.sub_diag, firstn_O, app_nil_r.
  rewrite skipn_app, skipn_all, Nat.sub_diag. cbn [skipn app].
  destruct (inserted e songUrl w) as [doc|] eqn:Hins; cbn [opt_list].
  - destruct (inserted_key _ _ _ _ Hins) as [Hkey _].
    repeat split.
    + unfold records_for at 2. cbn. rewrite Hkey.
      destruct (String.eqb_spec songUrl other) as [Heq | _]; [congruence|]. cbn. lia.
    + intros d [<- | []]. exact Hkey.
  - repeat split; [unfold records_for at 2; cbn; lia | intros d []].
Qed.

Lemma ingest_leaves_other_keys_sample :
  let w' := snd (fetchLyricsAndStore (answering full_result [1; 0]%float 5%N)
                   mayday scenario_world) in
  records_for "a" (songs w') = records_for "a" (songs scenario_world)
  /\ firstn (List.length (songs scenario_world)) (songs w') = songs scenario_world
  /\ (forall d, In d (skipn (List.length (songs scenario_world)) (songs w')) ->
      Doc.songUrl d = mayday).
Proof.
  apply (ingest_leaves_other_keys (answering full_result [1; 0]%float 5%N)
           mayday "a" scenario_world).
  discriminate.
Defined.




Lemma values_of_mapping (props : list (string * jsval)) (name : string)
  (m : option (list (string * string))) (vals : list jsval) :
  holds_mapping (lookup name props) m ->
  values_of (JObject props) name = inr vals ->
  m <> None /\ vals = map JString (mapping_values m).
Proof.
  unfold values_of. cbn. destruct m as [kvs|]; cbn.
  - intros ->. cbn. intros [= <-]. split; [discriminate|]. now rewrite !map_map.
  - intros [-> | ->]; discriminate.
Qed.

(** X15. What a stored record holds: for a response carrying a summary and
    string mappings, the record has the run's key, the base name of the
    key as file name, the summary, and the values of the three mappings
    in their iteration order (none of the three was absent, or nothing
    would have been stored), with the identifiers the bucket and the
    collection answered and the clock's time. *)
Theorem stored_record_fields (e : env) (songUrl : string) (w : world) (doc : Doc.song)
  (response : response) (result : jsval) (md : metadata) :
  songs (snd (fetchLyricsAndStore e songUrl w)) = songs w ++ [doc] ->
  fetch_l86 e songUrl = inr response -> json response = inr result ->
  carries result md ->
  Doc.songUrl doc = songUrl
  /\ Doc.filename doc = basename songUrl
  /\ Doc.summary doc = JString (md_summary md)
  /\ Doc.keywords doc = map JString (mapping_values (md_keywords md))
  /\ Doc.ddex_moods doc = map JString (mapping_values (md_moods md))
  /\ Doc.ddex_themes doc = map JString (mapping_values (md_themes md))
  /\ (md_keywords md <> None /\ md_moods md <> None /\ md_themes md <> None)
  /\ upload_l102 e = inr (Doc.audioFileId doc)
  /\ insertOne_l121 e = inr (Doc._id doc)
  /\ Doc.created_at doc = now_l117 e.
Proof.
  rewrite fetchLyricsAndStore_songs.
  intros H Hfetch Hjson (props & -> & Hs & Hk & Hm & Ht).
  apply app_inv_head in H.
  destruct (inserted e songUrl w) as [d|] eqn:Hins; [|discriminate].
  injection H as ->.
  destruct (inserted_Some _ _ _ _ Hins)
    as (result' & embedding & songBuffer & gridFSId & songData & id
        & _ & Hst & Hdata & Hid & ->).
  revert Hst. unfold stages, obind. rewrite Hfetch, Hjson.
  destruct (combinedText (JObject props)); [discriminate|].
  destruct (embedContent e s); [discriminate|].
  destruct (axios_get_l59 e songUrl); [discriminate|].
  destruct (upload_l102 e) as [?|gid]; [discriminate|].
  intros [= <- <- <- <-].
  revert Hdata. unfold songData_of, obind. cbn [get].
  destruct (values_of (JObject props) "keywords") as [?|kws] eqn:Hkw; [discriminate|].
  destruct (values_of (JObject props) "ddex moods") as [?|mds] eqn:Hmd; [discriminate|].
  destruct (values_of (JObject props) "ddex themes") as [?|ths] eqn:Hth; [discriminate|].
  intros [= <-]. cbn.
  destruct (values_of_mapping _ _ _ _ Hk Hkw) as [Nk ->].
  destruct (values_of_mapping _ _ _ _ Hm Hmd) as [Nm ->].
  destruct (values_of_mapping _ _ _ _ Ht Hth) as [Nt ->].
  rewrite Hs, Hid. repeat split; auto.
Qed.

Lemma stored_record_fields_sample :
  let e := answering full_result [1; 0; 0]%float 2%N in
  let md := {| md_summary := "A song about the sea";
               md_keywords := Some [("1", "sea"); ("2", "storm")]%string;
               md_moods := Some [("1", "calm")]%string;
               md_themes := Some [("1", "nature")]%string |} in
  let doc := {| Doc._id := 2%N;
                Doc.songUrl := other_song;
                Doc.audioFileId := 102%N;
                Doc.filename := "other.mp3";
                Doc.language := JString "english";
                Doc.language_iso := JString "en";
                Doc.summary := JString "A song about the sea";
                Doc.explicit := JBool false;
                Doc.keywords := [JString "sea"; JString "storm"];
                Doc.ddex_moods := [JString "calm"];
                Doc.ddex_themes := [JString "nature"];
                Doc.flags := JObject [];
                Doc.embedding := [1; 0; 0]%float;
                Doc.created_at := 1700000000000 |} in
  Doc.songUrl doc = other_song
  /\ Doc.filename doc = basename other_song
  /\ Doc.summary doc = JString (md_summary md)
  /\ Doc.keywords doc = map JString (mapping_values (md_keywords md))
  /\ Doc.ddex_moods doc = map JString (mapping_values (md_moods md))
  /\ Doc.ddex_themes doc = map JString (mapping_values (md_themes md))
  /\ (md_keywords md <> None /\ md_moods md <> None /\ md_themes md <> None)
  /\ upload_l102 e = inr (Doc.audioFileId doc)
  /\ insertOne_l121 e = inr (Doc._id doc)
  /\ Doc.created_at doc = now_l117 e.
Proof.
  cbv zeta.
  apply (stored_record_fields (answering full_result [1; 0; 0]%float 2%N) other_song
           empty_world _ {| json := inr full_result |} full_result).
  - vm_compute. reflexivity.
  - reflexivity.
  - reflexivity.
  - eexists. split; [reflexivity|]. repeat split; reflexivity.
Defined.

(* ================================================================== *)
(** * The Dedup Gate on its own *)

(** X16. When the database answers, [songExists] resolves with [true]
    exactly when some record has that very [songUrl] (string equality, so
    a key that differs in a single character is a new key), and with
    [false] otherwise, which is no error; it changes neither collection
    and leaves the connection it acquired open. *)
Theorem songExists_answers (e : env) (url : string) (w : world) :
  connect_l64 e = inr tt -> findOne_l66 e = inr tt ->
  exists found,
    songExists e url w = (inr found, emit (EvConnect true) w)
    /\ (found = true <-> exists d, In d (songs w) /\ Doc.songUrl d = url).
Proof.
  intros Hc Hf.
  unfold songExists, findOne, connectToDatabase, bind, lift, ret. rewrite Hc, Hf. cbn.
  destruct (find (fun d => String.eqb (Doc.songUrl d) url) (songs w)) as [d|] eqn:Hfind.
  - exists true. split; [reflexivity|]. split; [intros _|reflexivity].
    apply find_some in Hfind. destruct Hfind as [Hin Heq].
    exists d. split; [exact Hin|]. now apply String.eqb_eq.
  - exists false. split; [reflexivity|]. split; [discriminate|].
    intros (d & Hin & Heq).
    pose proof (find_none _ _ Hfind d Hin) as Hno. cbn in Hno.
    rewrite Heq, String.eqb_refl in Hno. discriminate.
Qed.

Lemma songExists_answers_sample :
  exists found,
    songExists (answering full_result [1; 0]%float 1%N) "b" scenario_world
    = (inr found, emit (EvConnect true) scenario_world)
    /\ (found = true <-> exists d, In d (songs scenario_world) /\ Doc.songUrl d = "b"%string).
Proof.
  apply (songExists_answers (answering full_result [1; 0]%float 1%N) "b" scenario_world);
    reflexivity.
Defined.

(** X17. When the existence query fails, [songExists] rejects: a failed
    lookup is never taken for "not stored", so ingestion stores nothing
    then. *)
Theorem songExists_query_fails (e : env) (url : string) (w : world) (err : exn) :
  connect_l64 e = inr tt -> findOne_l66 e = inl err ->
  fst (songExists e url w) = inl err
  /\ songs (snd (fetchLyricsAndStore e url w)) = songs w.
Proof.
  intros Hc Hf. split.
  - unfold songExists, findOne, connectToDatabase, bind, lift. now rewrite Hc, Hf.
  - rewrite fetchLyricsAndStore_songs. unfold inserted. rewrite Hc, Hf.
    destruct (connect_l78 e); apply app_nil_r.
Qed.

Lemma songExists_query_fails_sample :
  fst (songExists lookup_fails mayday empty_world) = inl (Rejected "MongoServerError")
  /\ songs (snd (fetchLyricsAndStore lookup_fails mayday empty_world)) = songs empty_world.
Proof.
  apply (songExists_query_fails lookup_fails mayday empty_world
           (Rejected "MongoServerError")); reflexivity.
Defined.

(* ================================================================== *)
(** * Cosine similarity: symmetry, empty vectors, NaN components *)

Lemma SFmul_comm (a b : spec_float) : SF64mul a b = SF64mul b a.
Proof.
  unfold SF64mul, SFmul.
  destruct a as [sa|sa| |sa ma ea], b as [sb|sb| |sb mb eb];
    try reflexivity; try (now rewrite xorb_comm).
  now rewrite xorb_comm, Pos.mul_comm, Z.add_comm.
Qed.

Lemma mul_comm (x y : number) : (x * y = y * x)%float.
Proof.
  apply Prim2SF_inj. rewrite !mul_spec. apply SFmul_comm.
Qed.

Lemma mul_NaN_l (x y : number) : FNaN x -> FNaN (x * y)%float.
Proof. intros H. rewrite mul_comm. now apply mul_NaN_r. Qed.

Lemma div_NaN_r (x y : number) : FNaN y -> FNaN (x / y)%float.
Proof.
  unfold FNaN. rewrite div_spec. intros ->. unfold SF64div, SFdiv.
  now destruct (Prim2SF x).
Qed.

Lemma sqrt_NaN (x : number) : FNaN x -> FNaN (sqrt x).
Proof. unfold FNaN. rewrite sqrt_spec. now intros ->. Qed.

(** Over vectors of one length the indexed sum of [cosineSimilarity] is the
    sum over the paired components. *)
Lemma dot_from_paired :
  forall (restA restB readB : list number) (acc : number),
    List.length restA = List.length restB ->
    reduce_from (fun sum val i => sum + val * at_index (readB ++ restB) i)%float
      restA (List.length readB) acc
    = paired_sum (combine restA restB) acc.
Proof.
  induction restA as [|a restA IH]; intros [|b restB] readB acc Hlen;
    try discriminate; [reflexivity|].
  assert (Hread : at_index (readB ++ b :: restB) (List.length readB) = b)
    by (unfold at_index; apply nth_middle).
  unfold paired_sum. cbn [reduce_from combine fold_left fst snd]. rewrite Hread.
  specialize (IH restB (readB ++ [b]) (acc + a * b)%float).
  rewrite <- app_assoc, length_app, Nat.add_1_r in IH. cbn [app] in IH.
  apply IH. now injection Hlen.
Qed.

Lemma dot_paired (vecA vecB : list number) :
  List.length vecA = List.length vecB ->
  dot vecA vecB = paired_sum (combine vecA vecB) 0%float.
Proof.
  intros Hlen. unfold dot, reduce.
  exact (dot_from_paired vecA vecB [] 0%float Hlen).
Qed.

Lemma paired_sum_swap (vecA vecB : list number) (acc : number) :
  paired_sum (combine vecA vecB) acc = paired_sum (combine vecB vecA) acc.
Proof.
  revert vecB acc. induction vecA as [|a vecA IH]; intros [|b vecB] acc;
    try reflexivity.
  unfold paired_sum in *. cbn [combine fold_left fst snd].
  rewrite (mul_comm a b). apply IH.
Qed.

(** X18. Scoring is symmetric on vectors of one length: the score of a
    query against a stored embedding is, bit for bit, the score of that
    embedding against the query. *)
Theorem cosineSimilarity_symmetric (vecA vecB : list number) :
  List.length vecA = List.length vecB ->
  cosineSimilarity vecA vecB = cosineSimilarity vecB vecA.
Proof.
  intros Hlen. rewrite !cosineSimilarity_eq.
  rewrite (dot_paired vecA vecB Hlen), (dot_paired vecB vecA (eq_sym Hlen)).
  rewrite paired_sum_swap, (mul_comm (magnitude vecA)).
  reflexivity.
Qed.

Lemma cosineSimilarity_symmetric_sample :
  cosineSimilarity [1; 0]%float [1; 1]%float = cosineSimilarity [1; 1]%float [1; 0]%float.
Proof.
  apply (cosineSimilarity_symmetric [1; 0]%float [1; 1]%float). reflexivity.
Defined.

(** X19. An empty embedding, as the query or as the stored vector, scores
    [NaN] against every vector: both sums start and end at 0, and the
    score is 0/0 or x/0 with x zero or [NaN]. *)
Theorem cosineSimilarity_empty (vec : list number) :
  is_nan (cosineSimilarity [] vec) = true
  /\ is_nan (cosineSimilarity vec []) = true.
Proof.
  split.
  - apply (cosineSimilarity_zero_magnitude [] vec); left; reflexivity.
  - apply (cosineSimilarity_zero_magnitude vec []); right; reflexivity.
Qed.

Lemma sum_squares_NaN (vec : list number) (x : number) :
  In x vec -> FNaN x ->
  forall i acc,
    FNaN (reduce_from (fun sum val (_ : nat) => sum + val * val)%float vec i acc).
Proof.
  induction vec as [|val rest IH]; intros Hin Hx i acc; [destruct Hin|].
  cbn [reduce_from]. destruct Hin as [-> | Hin].
  - apply reduce_from_invariant.
    + intros acc' val' _ _ Hacc. now apply add_NaN_l.
    + now apply add_NaN_r, mul_NaN_l.
  - now apply IH.
Qed.

Lemma magnitude_NaN (vec : list number) (x : number) :
  In x vec -> is_nan x = true -> FNaN (magnitude vec).
Proof.
  intros Hin Hx. unfold magnitude, reduce.
  apply sqrt_NaN, (sum_squares_NaN vec x Hin). now apply is_nan_spec.
Qed.

(** X20. A single [NaN] component, anywhere in either vector, makes the
    score [NaN]: it reaches that vector's magnitude whether or not the dot
    product reads it. *)
Theorem cosineSimilarity_NaN_component (vecA vecB : list number) (x : number) :
  is_nan x = true -> In x vecA \/ In x vecB ->
  is_nan (cosineSimilarity vecA vecB) = true.
Proof.
  intros Hx Hin. apply is_nan_spec. rewrite cosineSimilarity_eq.
  apply div_NaN_r.
  destruct Hin as [Hin | Hin].
  - apply mul_NaN_l. exact (magnitude_NaN vecA x Hin Hx).
  - apply mul_NaN_r. exact (magnitude_NaN vecB x Hin Hx).
Qed.

Lemma cosineSimilarity_NaN_component_sample :
  is_nan (cosineSimilarity [1; 0]%float [1; 0; nan]%float) = true.
Proof.
  apply (cosineSimilarity_NaN_component [1; 0]%float [1; 0; nan]%float nan).
  - reflexivity.
  - right. cbn. auto.
Defined.

(* ================================================================== *)
(** * Retrying an ingestion *)

Lemma stored_same_songs (songUrl : string) (w w' : world) :
  songs w' = songs w -> stored songUrl w' = stored songUrl w.
Proof. unfold stored. now intros ->. Qed.

(** X21. A failed ingestion can be retried: when a run for a new key does
    not go through, it leaves the collection as it was, and a later run
    for the same key whose calls all answer stores the record, one record
    for the key in the end. *)
Theorem ingest_retry (e1 e2 : env) (songUrl : string) (w : world) :
  records_for songUrl (songs w) = 0 ->
  all_answer e1 songUrl = false ->
  all_answer e2 songUrl = true ->
  let w1 := snd (fetchLyricsAndStore e1 songUrl w) in
  let w2 := snd (fetchLyricsAndStore e2 songUrl w1) in
  songs w1 = songs w
  /\ records_for songUrl (songs w2) = 1
  /\ List.length (songs w2) = S (List.length (songs w)).
Proof.
  intros Hnew Hfail Hok. cbv zeta.
  apply stored_None_iff in Hnew.
  assert (H1 : songs (snd (fetchLyricsAndStore e1 songUrl w)) = songs w).
  { rewrite fetchLyricsAndStore_songs.
    destruct (inserted e1 songUrl w) as [doc|] eqn:Hins; [|apply app_nil_r].
    assert (Hex : exists d, inserted e1 songUrl w = Some d) by eauto.
    apply inserted_iff in Hex. destruct Hex as [Hall _]. congruence. }
  split; [exact H1|].
  set (w1 := snd (fetchLyricsAndStore e1 songUrl w)) in *.
  assert (Hnew1 : stored songUrl w1 = None)
    by (now rewrite (stored_same_songs songUrl w w1 H1)).
  destruct (inserted_when_all_answer e2 songUrl w1 Hok Hnew1) as (doc & Hins & Hkey).
  rewrite fetchLyricsAndStore_songs, Hins, H1. cbn [opt_list].
  rewrite records_for_app, length_app.
  apply stored_None_iff in Hnew. rewrite Hnew.
  unfold records_for. cbn. rewrite Hkey, String.eqb_refl. cbn. split; lia.
Qed.

Lemma ingest_retry_sample :
  let w1 := snd (fetchLyricsAndStore lookup_fails mayday empty_world) in
  let w2 := snd (fetchLyricsAndStore (answering full_result [1; 0]%float 1%N) mayday w1) in
  songs w1 = songs empty_world
  /\ records_for mayday (songs w2) = 1
  /\ List.length (songs w2) = S (List.length (songs empty_world)).
Proof.
  apply (ingest_retry lookup_fails (answering full_result [1; 0]%float 1%N)
           mayday empty_world).
  - reflexivity.
  - vm_compute. reflexivity.
  - vm_compute. reflexivity.
Defined.
